(* ====================================================================== *)
(*  RT0-P0 mixed finite elements (porepy/numerics/fem/rt0.py)             *)
(*                                                                        *)
(*  A shallow embedding of the class RT0: ndof, matrix_rhs, matrix, rhs,  *)
(*  extract_u, extract_p, project_u, massHdiv and opposite_side_node,     *)
(*  followed by the properties of the discretisation that the             *)
(*  specification states.                                                 *)
(*                                                                        *)
(*  Conventions of the embedding                                          *)
(*  - numpy's float64 is idealised as an arbitrary real field R: rounding *)
(*    is not modelled, and division by zero (inf or nan in numpy) is      *)
(*    outside the idealisation, x / 0 being 0 in R.  Closed examples are  *)
(*    run over the rationals.  Where rounding decides a property, HB and  *)
(*    massHdiv are given a second time with the operations of binary64.   *)
(*  - An array that the caller provides is a matrix 'M[T]_(m, n) of the   *)
(*    shape the code expects (a vector is a row); index arrays and the    *)
(*    vectors the code builds and updates by index are sequences.         *)
(*    Indices are natural numbers, as in numpy.                           *)
(*  - A scipy sparse matrix is modelled by the dense matrix it denotes,   *)
(*    assumed stored in canonical form (no duplicate and no explicit zero *)
(*    entry), so that sps.find lists its non-zero entries column by       *)
(*    column and the slices taken with indptr are the columns.            *)
(*  - A raised Python exception is a value Raise e of the result type.    *)
(*  - The permeability tensor is a mutable object: tensors live in a heap *)
(*    and the data dictionary holds a reference.  The other arguments are *)
(*    only read and are plain values.                                     *)
(*  - pp.cg.map_grid and the tensor class are collaborators that are not  *)
(*    part of the module: the values map_grid returns for the grid are an *)
(*    argument, the rotation of one cell of a tensor is a parameter.      *)
(* ====================================================================== *)

From Stdlib Require Import PrimFloat.
From HB Require Import structures.
From mathcomp Require Import boot order algebra.

Set Implicit Arguments.
Unset Strict Implicit.
Unset Printing Implicit Defensive.

Import Order.Theory GRing.Theory Num.Theory.
Local Open Scope ring_scope.

(* ---------------------------------------------------------------------- *)
(*  Exceptions                                                            *)
(* ---------------------------------------------------------------------- *)

Inductive exn :=
  | ValueError | KeyError | AttributeError | AssertionError | LinAlgError
  | IndexError.

Inductive result (A : Type) :=
  | Ok (a : A)
  | Raise (e : exn).

Arguments Ok {A} a.
Arguments Raise {A} e.

Definition rbind {A B : Type} (x : result A) (f : A -> result B) : result B :=
  match x with
  | Ok a => f a
  | Raise e => Raise e
  end.

Notation "'do' x <- e1 ; e2" := (rbind e1 (fun x => e2))
  (at level 200, x name, e1 at level 100, e2 at level 200,
   format "'[v' 'do'  x  <-  e1 ; '/' e2 ']'").

(* Runs [f] on the elements of [s] from left to right and stops at the first
   exception: the shape of the `for c in np.arange(g.num_cells)` loops. *)
Fixpoint mapM {A B : Type} (f : A -> result B) (s : seq A) : result (seq B) :=
  match s with
  | [::] => Ok [::]
  | x :: s' => do y <- f x; do ys <- mapM f s'; Ok (y :: ys)
  end.

(* ---------------------------------------------------------------------- *)
(*  Dense arrays                                                          *)
(* ---------------------------------------------------------------------- *)

Section Arrays.

Variable R : realFieldType.

(* A[i, j] for natural-number indices, as numpy indexes an array.  The
   default [x0] stands for an index out of range, which no call below
   produces on arrays of the declared shapes. *)
Definition get (T : Type) (x0 : T) m n (A : 'M[T]_(m, n)) (i j : nat) : T :=
  match insub i, insub j with
  | Some i', Some j' => A i' j'
  | _, _ => x0
  end.

Definition mx_get m n (A : 'M[R]_(m, n)) (i j : nat) : R := get 0 A i j.

(* The array whose entry (i, j) is f i j. *)
Definition of_fun (T : Type) m n (f : nat -> nat -> T) : 'M[T]_(m, n) :=
  \matrix_(i, j) f i j.



(* np.diagflat(np.ones(n - k), k): ones on the k-th upper diagonal. *)
Definition diagflat_ones n (k : nat) : 'M[R]_n :=
  \matrix_(i, j) ((nat_of_ord j == (i + k)%N)%:R).

(* np.arange(0, stop, step), for step > 0. *)
Definition arange (stop step : nat) : seq nat :=
  [seq it <- iota 0 stop | (step %| it)%N].

(* size_HB = g.dim * (g.dim + 1) *)
Definition size_HB (dim : nat) : nat := (dim * dim.+1)%N.

(* HB = np.zeros((size_HB, size_HB))
   for it in np.arange(0, size_HB, g.dim):
       HB += np.diagflat(np.ones(size_HB - it), it) *)
Definition HB_bands (dim : nat) : 'M[R]_(size_HB dim) :=
  \sum_(it <- arange (size_HB dim) dim) diagflat_ones (size_HB dim) it.

(* HB += HB.T
   HB /= g.dim * g.dim * (g.dim + 1) * (g.dim + 2) *)
Definition HB_matrix (dim : nat) : 'M[R]_(size_HB dim) :=
  let HB := HB_bands dim in
  let HB := HB + HB^T in
  \matrix_(i, j) (HB i j / (dim * dim * dim.+1 * dim.+2)%:R).

(* The entry (a, b) of linalg.block_diag applied to copies of B: the rows
   and columns a // dim hold the same copy. *)
Definition bd_fun dim (B : 'M[R]_dim) (a b : nat) : R :=
  if (a %/ dim == b %/ dim)%N then mx_get B (a %% dim) (b %% dim) else 0.

(* linalg.block_diag applied to dim + 1 copies of B. *)
Definition block_diag dim (B : 'M[R]_dim) : 'M[R]_(size_HB dim) :=
  \matrix_(a, b) bd_fun B a b.

(* N = coord.flatten("F").reshape((-1, 1)) * np.ones((1, dim + 1))
       - np.tile(coord, (dim + 1, 1)) *)
Definition N_matrix dim (coord : 'M[R]_(dim, dim.+1)) :
    'M[R]_(size_HB dim, dim.+1) :=
  \matrix_(a, j)
    (mx_get coord (a %% dim) (a %/ dim) * 1 - mx_get coord (a %% dim) j).

(* RT0.massHdiv.  The arrays have the shapes the docstring gives them:
   K is dim x dim, coord has dim rows (so that coord[0:dim, :] is coord) and
   one column per face of the simplex, sign has one entry per face.
   np.linalg.inv raises LinAlgError on a singular K. *)
Definition massHdiv (dim : nat) (K : 'M[R]_dim) (c_volume : R)
    (coord : 'M[R]_(dim, dim.+1)) (sign : 'rV[R]_(dim.+1))
    (HB : 'M[R]_(size_HB dim)) : result 'M[R]_(dim.+1) :=
  if K \in unitmx then
    let inv_K := invmx K in
    let inv_K : 'M[R]_(size_HB dim) :=
      \matrix_(a, b) (block_diag inv_K a b / c_volume) in
    let N := N_matrix coord in
    let C := diag_mx sign in
    Ok (C^T *m (N^T *m (HB *m (inv_K *m (N *m C)))))
  else Raise LinAlgError.

End Arrays.

Arguments get {T} x0 {m n} A i j.
Arguments of_fun {T} m n f.

(* ---------------------------------------------------------------------- *)
(*  The local mass matrix in binary64                                     *)
(* ---------------------------------------------------------------------- *)







(* ---------------------------------------------------------------------- *)
(*  Grids, parameters and the data dictionary                             *)
(* ---------------------------------------------------------------------- *)

Section Model.

Variable R : realFieldType.

(* pp.Grid.  cell_faces is the oriented face-cell incidence (entries +1, -1),
   face_nodes the node-face incidence. *)
Record Grid := mkGrid {
  dim : nat;
  num_cells : nat;
  num_faces : nat;
  num_nodes : nat;
  cell_faces : 'M[R]_(num_faces, num_cells);
  face_nodes : 'M[bool]_(num_nodes, num_faces);
  cell_volumes : 'rV[R]_num_cells;
  face_areas : 'rV[R]_num_faces
}.

(* pp.MortarGrid: only its number of cells is read. *)
Record MortarGrid := mkMortarGrid { mortar_num_cells : nat }.

(* What the argument of ndof is an instance of. *)
Inductive entity :=
  | IsGrid (g : Grid)
  | IsMortarGrid (g : MortarGrid)
  | IsOther.

(* RT0.ndof *)
Definition ndof (g : entity) : result nat :=
  match g with
  | IsGrid g => Ok (num_cells g + num_faces g)%N
  | IsMortarGrid g => Ok (mortar_num_cells g)
  | IsOther => Raise ValueError
  end.

(* pp.BoundaryCondition: one flag and one Robin weight per face. *)
Record BoundaryCondition (nf : nat) := mkBC {
  is_dir : 'rV[bool]_nf;
  is_neu : 'rV[bool]_nf;
  is_rob : 'rV[bool]_nf;
  is_internal : 'rV[bool]_nf;
  robin_weight : 'rV[R]_nf
}.

(* The face f carries the flag and is not internal: the faces that
   np.logical_and(flag, np.logical_not(bc.is_internal)) selects. *)
Definition on_boundary nf (flag : 'rV[bool]_nf) (bc : BoundaryCondition nf)
    (f : nat) : bool :=
  get false flag 0 f && ~~ get false (is_internal bc) 0 f.

(* The permeability tensor object: k.perm is an array of shape
   (perm_shape, perm_shape, num_cells), read as perm i j c. *)
Record Tensor := mkTensor {
  perm_shape : nat;
  perm : nat -> nat -> nat -> R
}.

(* data["param"]: the tensor is held by reference, get_bc and get_bc_val
   may return None. *)
Record Parameters (g : Grid) := mkParameters {
  get_tensor : nat;
  get_bc : option (BoundaryCondition (num_faces g));
  get_bc_val : option 'rV[R]_(num_faces g);
  get_source : seq R;
  get_aperture : 'rV[R]_(num_cells g)
}.

(* The data dictionary: data["param"] and data.get("is_tangential", False). *)
Record Data (g : Grid) := mkData {
  param : Parameters g;
  is_tangential : option bool
}.

(* The six values returned by pp.cg.map_grid(g), a collaborator of this
   module: centres, normals and node coordinates in the local frame (one row
   per dimension of the grid), the rotation R and the mask of the active
   dimensions. *)
Record MappedGrid (g : Grid) := mkMappedGrid {
  c_centers : 'M[R]_(dim g, num_cells g);
  f_normals : 'M[R]_(dim g, num_faces g);
  f_centers : 'M[R]_(dim g, num_faces g);
  rotation : 'M[R]_3;
  active_dim : 'rV[bool]_3;
  node_coords : 'M[R]_(dim g, num_nodes g)
}.

(* ---------------------------------------------------------------------- *)
(*  The heap of tensor objects                                            *)
(* ---------------------------------------------------------------------- *)

Definition heap := seq Tensor.

Definition no_tensor : Tensor := mkTensor 0 (fun _ _ _ => 0).

Definition deref (h : heap) (k : nat) : Tensor := nth no_tensor h k.

(* A computation that may raise and may write the heap; what it wrote before
   raising stays written. *)
Definition stateful (A : Type) := heap -> result A * heap.

Definition ret {A : Type} (a : A) : stateful A := fun h => (Ok a, h).

Definition pure_result {A : Type} (x : result A) : stateful A :=
  fun h => (x, h).

Definition bindH {A B : Type} (x : stateful A) (f : A -> stateful B) :
    stateful B :=
  fun h => match x h with
           | (Ok a, h') => f a h'
           | (Raise e, h') => (Raise e, h')
           end.

(* SecondOrderTensor.rotate computes, cell by cell, the image of a 3 x 3
   matrix under the rotation; the class is a collaborator of this module and
   the image is left as a parameter. *)
Variable rotate_perm : 'M[R]_3 -> 'M[R]_3 -> 'M[R]_3.

(** Modelled from the spec: SecondOrderTensor.copy, which is not in the
   sources; it returns a new tensor object holding a copy of the array. *)
Definition tensor_copy (k : nat) : stateful nat :=
  fun h => (Ok (size h), rcons h (deref h k)).

(** Modelled from the spec: SecondOrderTensor.rotate, "in-place rotation into
   a local frame": the array of the object k is replaced; an array that is
   not 3 x 3 x num_cells cannot be contracted with R. *)
Definition tensor_rotate (k : nat) (Rm : 'M[R]_3) : stateful unit :=
  fun h =>
    let T := deref h k in
    if perm_shape T == 3 then
      let rotated c : 'M[R]_3 :=
        rotate_perm Rm (\matrix_(i, j) perm T i j c) in
      (Ok tt, set_nth no_tensor h k
                (mkTensor 3 (fun i j c => mx_get (rotated c) i j)))
    else (Raise ValueError, h).

(* np.delete(arr, idx, axis): the indices of the axis that are kept. *)
Definition kept (n : nat) (idx : seq nat) : seq nat :=
  [seq i <- iota 0 n | i \notin idx].

(* k.perm = np.delete(k.perm, (remove_dim), axis=0)
   k.perm = np.delete(k.perm, (remove_dim), axis=1)
   The two assignments are taken together. *)
Definition tensor_delete (k : nat) (remove_dim : seq nat) : stateful unit :=
  fun h =>
    let T := deref h k in
    let rows := kept (perm_shape T) remove_dim in
    (Ok tt, set_nth no_tensor h k
              (mkTensor (size rows)
                 (fun i j c => perm T (nth 0%N rows i) (nth 0%N rows j) c))).

(* ---------------------------------------------------------------------- *)
(*  numpy and scipy.sparse operations                                     *)
(* ---------------------------------------------------------------------- *)

(* np.where(mask)[0] *)
Definition np_where n (mask : 'rV[bool]_n) : seq nat :=
  [seq i <- iota 0 n | get false mask 0 i].

(* np.any(mask) *)
Definition np_any n (mask : 'rV[bool]_n) : bool :=
  has (fun i => get false mask 0 i) (iota 0 n).

(* np.logical_and(a, np.logical_not(b)) *)
Definition and_not n (a b : 'rV[bool]_n) : 'rV[bool]_n :=
  \row_i (a 0 i && ~~ b 0 i).

(* v[idx] = vals, for an index array idx *)
Definition assign (v : seq R) (idx : seq nat) (vals : seq R) : seq R :=
  foldl (fun v p => set_nth 0 v p.1 p.2) v (zip idx vals).

(* v[idx] += vals *)
Definition iadd (v : seq R) (idx : seq nat) (vals : seq R) : seq R :=
  assign v idx [seq nth 0 v p.1 + p.2 | p <- zip idx vals].

(* v[idx], which raises IndexError on an index out of range *)
Definition take_idx (v : seq R) (idx : seq nat) : result (seq R) :=
  if all (fun i => (i < size v)%N) idx then Ok [seq nth 0 v i | i <- idx]
  else Raise IndexError.

(* sps.find(A): rows, columns and values of the non-zero entries, listed
   column by column. *)
Definition sps_find m n (A : 'M[R]_(m, n)) : seq (nat * nat * R) :=
  flatten [seq [seq (i, j, mx_get A i j)
               | i <- iota 0 m & mx_get A i j != 0] | j <- iota 0 n].

(* np.unique(s, return_index=True)[1]: for each value of s, in increasing
   order, the position of its first occurrence. *)
Definition np_unique_index (s : seq nat) : seq nat :=
  [seq index x s | x <- sort leq (undup s)].

(* sps.dia_matrix((data, 0), shape=(n, n)) *)
Definition dia_matrix (n : nat) (data : seq R) : 'M[R]_n :=
  \matrix_(i, j) (if i == j then nth 0 data i else 0).

(* rows are the indices of rows of the csr matrix M:
   for row in rows: M.data[M.indptr[row] : M.indptr[row + 1]] = 0. *)
Definition zero_rows n (M : 'M[R]_n) (rows : seq nat) : 'M[R]_n :=
  \matrix_(i, j) (if (i : nat) \in rows then 0 else M i j).

(* M.diagonal() *)
Definition diagonal n (M : 'M[R]_n) : seq R :=
  [seq mx_get M i i | i <- iota 0 n].

(* M.setdiag(d) *)
Definition setdiag n (M : 'M[R]_n) (d : seq R) : 'M[R]_n :=
  \matrix_(i, j) (if i == j then nth 0 d i else M i j).

(* sps.linalg.norm(A, np.inf): the largest absolute row sum *)
Definition norm_inf n (A : 'M[R]_n) : R :=
  \big[Num.max/0]_(i < n) \sum_(j < n) `|A i j|.

(* sps.coo_matrix((dataIJ, (I, J))) for the triplets the cell loop stores:
   a cell with faces faces_loc and local matrix A contributes A[p, q] at
   (faces_loc[p], faces_loc[q]); entries at the same place are summed. *)
Definition coo_matrix (nf d : nat) (cells : seq (seq nat * 'M[R]_d)) :
    'M[R]_nf :=
  \matrix_(i, j)
    \sum_(t <- cells) \sum_(p < d) \sum_(q < d)
      (if (nth 0%N t.1 p == i :> nat) && (nth 0%N t.1 q == j :> nat)
       then t.2 p q else 0).

(* ---------------------------------------------------------------------- *)
(*  The faces and the opposite nodes of a cell                            *)
(* ---------------------------------------------------------------------- *)

Section Cells.

Variable g : Grid.

(* faces, cells, sign = sps.find(g.cell_faces)
   index = np.argsort(cells); faces, sign = faces[index], sign[index]
   loc = slice(g.cell_faces.indptr[c], g.cell_faces.indptr[c + 1])
   faces[loc] is the part of the find output that belongs to column c: the
   rows of the non-zero entries of that column, in increasing order
   (np.argsort is taken to keep the order of equal keys). *)
Definition local_faces (c : nat) : seq nat :=
  [seq f <- iota 0 (num_faces g) | mx_get (cell_faces g) f c != 0].

(* sign[loc] *)
Definition local_sign (c : nat) : seq R :=
  [seq mx_get (cell_faces g) f c | f <- local_faces c].

(* nodes[indptr[f] : indptr[f + 1]], with nodes, _, _ = sps.find(face_nodes):
   the nodes of the face f, in increasing order. *)
Definition nodes_of_face (f : nat) : seq nat :=
  [seq n <- iota 0 (num_nodes g) | get false (face_nodes g) n f].

(* RT0.opposite_side_node, with np.unique as sort and undup and
   np.setdiff1d(nodes_loc, f, assume_unique=True) as a filter of nodes_loc.
   The faces are taken to have the same number of nodes, as the faces of a
   grid of simplices do: on a ragged list np.unique raises. *)
Definition opposite_side_node (faces_loc : seq nat) : seq nat :=
  let face_nodes := [seq nodes_of_face f | f <- faces_loc] in
  let nodes_loc := sort leq (undup (flatten face_nodes)) in
  let opposite_node :=
    [seq [seq n <- nodes_loc | n \notin f] | f <- face_nodes] in
  flatten opposite_node.

(* The cell is a simplex: dim + 1 faces, each with one opposite node.  For
   other cells the arrays of the cell loop do not have the shapes massHdiv
   and project_u work with; the model stops there with ValueError. *)
Definition is_simplex (c : nat) : bool :=
  (size (local_faces c) == (dim g).+1)
  && (size (opposite_side_node (local_faces c)) == (dim g).+1).

End Cells.

(* ---------------------------------------------------------------------- *)
(*  RT0.matrix                                                            *)
(* ---------------------------------------------------------------------- *)

(* A square sparse matrix together with its order. *)
Record SqMatrix := mkSq { sq_order : nat; entries : 'M[R]_sq_order }.

(* M[i, j] *)
Definition entry (A : SqMatrix) (i j : nat) : R := mx_get (entries A) i j.

Section Matrix.

Variables (g : Grid) (mg : MappedGrid g).

(* a[c] * k.perm[0 : g.dim, 0 : g.dim, c].  When the array k.perm is smaller
   than g.dim the product is smaller too, and massHdiv raises: LinAlgError
   if the small matrix is singular, ValueError from np.dot otherwise. *)
Definition cell_perm (k : Tensor) (a : 'rV[R]_(num_cells g)) (c : nat) :
    result 'M[R]_(dim g) :=
  if (dim g <= perm_shape k)%N then
    Ok (\matrix_(i, j) (mx_get a 0 c * perm k i j c))
  else if (\matrix_(i < perm_shape k, j < perm_shape k)
              (mx_get a 0 c * perm k i j c)) \in unitmx
       then Raise ValueError
  else Raise LinAlgError.

(* The body of the loop `for c in np.arange(g.num_cells)` of matrix: the
   faces of the cell and its local matrix A. *)
Definition local_matrix (k : Tensor) (a : 'rV[R]_(num_cells g))
    (HB : 'M[R]_(size_HB (dim g))) (c : nat) :
    result (seq nat * 'M[R]_((dim g).+1)) :=
  let faces_loc := local_faces g c in
  let node := opposite_side_node g faces_loc in
  if is_simplex g c then
    let coord_loc : 'M[R]_(dim g, (dim g).+1) :=
      \matrix_(i, j) mx_get (node_coords mg) i (nth 0%N node j) in
    let sign_loc : 'rV[R]_((dim g).+1) :=
      \row_j nth 0 (local_sign g c) j in
    do K <- cell_perm k a c;
    do A <- massHdiv K (mx_get (cell_volumes g) 0 c) coord_loc sign_loc HB;
    Ok (faces_loc, A)
  else Raise ValueError.

(* The Neumann rows of matrix: the rows of the faces are cleared and norm
   is put on their diagonal.  bc is an object, hence true. *)
Definition neumann_rows (bc : BoundaryCondition (num_faces g)) (norm : R)
    (M : 'M[R]_(num_faces g + num_cells g)) :
    'M[R]_(num_faces g + num_cells g) :=
  let is_neu := and_not (is_neu bc) (is_internal bc) in
  if np_any is_neu then
    let is_neu := np_where is_neu in
    let M := zero_rows M is_neu in
    let d := diagonal M in
    let d := assign d is_neu (nseq (size is_neu) norm) in
    setdiag M d
  else M.

(* The Robin diagonal of matrix.  The vector data has ndof(g) entries, as
   many as M has rows. *)
Definition robin_diagonal (bc : BoundaryCondition (num_faces g))
    (M : 'M[R]_(num_faces g + num_cells g)) :
    result 'M[R]_(num_faces g + num_cells g) :=
  let is_rob := and_not (is_rob bc) (is_internal bc) in
  if np_any is_rob then
    let is_rob := np_where is_rob in
    do n <- ndof (IsGrid g);
    let data := nseq n 0 in
    let data :=
      assign data is_rob
        [seq 1 / (mx_get (robin_weight bc) 0 i * mx_get (face_areas g) 0 i)
        | i <- is_rob] in
    Ok (M + dia_matrix (num_faces g + num_cells g) data)
  else Ok M.

(* matrix from the allocation of the triplets on, for the tensor k that the
   rotation has prepared.  coo_matrix takes its shape from the largest face
   index it is given and bmat needs num_faces rows: the last face must
   belong to a cell.  bc.is_neu is read before bc is tested, which raises
   AttributeError when get_bc returned None. *)
Definition assemble (k : Tensor) (bc : option (BoundaryCondition (num_faces g)))
    (a : 'rV[R]_(num_cells g)) (bc_weight : bool) :
    result (SqMatrix * option R) :=
  let HB := HB_matrix R (dim g) in
  do cells <- mapM (local_matrix k a HB) (iota 0 (num_cells g));
  if (0 < num_faces g)%N && has (fun t => (num_faces g).-1 \in t.1) cells then
    let mass := coo_matrix (num_faces g) cells in
    let div := - (cell_faces g)^T in
    let M := block_mx mass div^T div 0 in
    let norm := if bc_weight then norm_inf mass else 1 in
    match bc with
    | None => Raise AttributeError
    | Some bc =>
        let M := neumann_rows bc norm M in
        do M <- robin_diagonal bc M;
        Ok (mkSq M, if bc_weight then Some norm else None)
    end
  else Raise ValueError.

(* RT0.matrix.  It returns M, or the pair of M and the weight when
   bc_weight is set. *)
Definition matrix (data : Data g) (bc_weight : bool) :
    stateful (SqMatrix * option R) :=
  if dim g == 0%N then
    pure_result (do n <- ndof (IsGrid g);
          Ok (mkSq (dia_matrix n [:: 1; 0]),
              if bc_weight then Some 1 else None))
  else
    let param := param data in
    let k := get_tensor param in
    let bc := get_bc param in
    let a := get_aperture param in
    bindH (if ~~ odflt false (is_tangential data) && (dim g < 3)%N then
             bindH (tensor_copy k) (fun k =>
             bindH (tensor_rotate k (rotation mg)) (fun _ =>
             let remove_dim :=
               np_where (\row_i ~~ active_dim mg 0 i) in
             bindH (tensor_delete k remove_dim) (fun _ =>
             ret k)))
           else ret k) (fun k =>
    fun h => (assemble (deref h k) bc a bc_weight, h)).

End Matrix.

(* ---------------------------------------------------------------------- *)
(*  RT0.rhs                                                               *)
(* ---------------------------------------------------------------------- *)

(* faces, _, sign = sps.find(g.cell_faces)
   sign = sign[np.unique(faces, return_index=True)[1]] *)
Definition face_sign (g : Grid) : seq R :=
  let entries := sps_find (cell_faces g) in
  let faces := [seq t.1.1 | t <- entries] in
  let sign := [seq t.2 | t <- entries] in
  [seq nth 0 sign i | i <- np_unique_index faces].

(* Every face bounds a cell: the sign array then has one entry per face. *)
Definition faces_covered (g : Grid) : bool :=
  all (fun f => has (fun c => mx_get (cell_faces g) f c != 0)
                  (iota 0 (num_cells g)))
      (iota 0 (num_faces g)).

Section Rhs.

Variable g : Grid.

Definition rhs_dirichlet (bc : BoundaryCondition (num_faces g))
    (bc_val : 'rV[R]_(num_faces g)) (sign rhs : seq R) : result (seq R) :=
  let is_dir := and_not (is_dir bc) (is_internal bc) in
  if np_any is_dir then
    let is_dir := np_where is_dir in
    do s <- take_idx sign is_dir;
    Ok (iadd rhs is_dir
          [seq - x.1 * mx_get bc_val 0 x.2 | x <- zip s is_dir])
  else Ok rhs.

Definition rhs_robin (bc : BoundaryCondition (num_faces g))
    (bc_val : 'rV[R]_(num_faces g)) (sign rhs : seq R) : result (seq R) :=
  let is_rob := and_not (is_rob bc) (is_internal bc) in
  if np_any is_rob then
    let is_rob := np_where is_rob in
    do s <- take_idx sign is_rob;
    Ok (iadd rhs is_rob
          [seq - x.1 * mx_get bc_val 0 x.2 / mx_get (robin_weight bc) 0 x.2
          | x <- zip s is_rob])
  else Ok rhs.

Definition rhs_neumann (bc : BoundaryCondition (num_faces g))
    (bc_val : 'rV[R]_(num_faces g)) (bc_weight : R) (sign rhs : seq R) :
    result (seq R) :=
  let is_neu := and_not (is_neu bc) (is_internal bc) in
  if np_any is_neu then
    let is_neu := np_where is_neu in
    do s <- take_idx sign is_neu;
    Ok (assign rhs is_neu
          [seq x.1 * bc_weight * mx_get bc_val 0 x.2 | x <- zip s is_neu])
  else Ok rhs.

(* RT0.rhs.  The assertion lets through the data in which get_bc and
   get_bc_val are both None or both present. *)
Definition rhs (data : Data g) (bc_weight : R) : result (seq R) :=
  let param := param data in
  let f := get_source param in
  if dim g == 0%N then Ok (0 :: f)
  else
    let bc := get_bc param in
    let bc_val := get_bc_val param in
    if (~~ isSome bc) != (~~ isSome bc_val) then Raise AssertionError
    else
      do n <- ndof (IsGrid g);
      let rhs := nseq n 0 in
      match bc, bc_val with
      | None, _ => Ok rhs
      | Some bc, Some bc_val =>
          let sign := face_sign g in
          do rhs <- rhs_dirichlet bc bc_val sign rhs;
          do rhs <- rhs_robin bc bc_val sign rhs;
          do rhs <- rhs_neumann bc bc_val bc_weight sign rhs;
          Ok rhs
      | Some _, None => Raise AssertionError
      end.

(* RT0.matrix_rhs *)
Definition matrix_rhs (mg : MappedGrid g) (data : Data g) :
    stateful (SqMatrix * seq R) :=
  bindH (matrix mg data true) (fun Mw =>
  pure_result (do r <- rhs data (odflt 1 Mw.2); Ok (Mw.1, r))).

(* RT0.extract_u and RT0.extract_p *)
Definition extract_u (up : seq R) : seq R := take (num_faces g) up.

Definition extract_p (up : seq R) : seq R := drop (num_faces g) up.

End Rhs.

(* ---------------------------------------------------------------------- *)
(*  RT0.project_u                                                         *)
(* ---------------------------------------------------------------------- *)

(* An array with 3 rows. *)
Record Dense3 := mkDense3 { ncols : nat; values : 'M[R]_(3, ncols) }.

(* P0u[r, c] *)
Definition value (P : Dense3) (r c : nat) : R := mx_get (values P) r c.

Section Project.

Variables (g : Grid) (mg : MappedGrid g).

(* np.dot(Pi, u[faces_loc]) * a[c] for the cell c *)
Definition local_velocity (u : 'rV[R]_(num_faces g))
    (a : 'rV[R]_(num_cells g)) (c : nat) : 'cV[R]_(dim g) :=
  let faces_loc := local_faces g c in
  let node := opposite_side_node g faces_loc in
  let center : 'M[R]_(dim g, (dim g).+1) :=
    \matrix_(i, j) mx_get (c_centers mg) i c in
  let coord : 'M[R]_(dim g, (dim g).+1) :=
    \matrix_(i, j) mx_get (node_coords mg) i (nth 0%N node j) in
  let delta_c := center - coord in
  let delta_f : 'M[R]_(dim g, (dim g).+1) :=
    \matrix_(i, j) mx_get (f_centers mg) i (nth 0%N faces_loc j) - coord in
  let normals : 'M[R]_(dim g, (dim g).+1) :=
    \matrix_(i, j) mx_get (f_normals mg) i (nth 0%N faces_loc j) in
  let Pi : 'M[R]_(dim g, (dim g).+1) :=
    \matrix_(i, j) (delta_c i j / \sum_k delta_f k j * normals k j) in
  let u_loc : 'cV[R]_((dim g).+1) :=
    \col_j mx_get u 0 (nth 0%N faces_loc j) in
  \col_i ((Pi *m u_loc) i 0 * mx_get a 0 c).

(* P0u[dim, c] = v on a zero column: the entries of v go to the rows the
   mask selects, in order; a one-entry v is broadcast.  Other lengths do not
   fit the selection. *)
Definition scatter (mask : 'rV[bool]_3) (v : 'cV[R]_(dim g)) :
    result 'cV[R]_3 :=
  let rows := np_where mask in
  if (size rows == dim g) || (dim g == 1%N) then
    Ok (\col_r (if mask 0 r
                then mx_get v (if dim g == 1%N then 0%N
                               else index (r : nat) rows) 0
                else 0))
  else Raise ValueError.

(* The body of the loop of project_u: the column c of P0u. *)
Definition project_cell (u : 'rV[R]_(num_faces g))
    (a : 'rV[R]_(num_cells g)) (c : nat) : result 'cV[R]_3 :=
  if is_simplex g c then
    do P0u_c <- scatter (active_dim mg) (local_velocity u a c);
    Ok ((rotation mg)^T *m P0u_c)
  else Raise ValueError.

(* RT0.project_u *)
Definition project_u (u : 'rV[R]_(num_faces g)) (data : Data g) :
    result Dense3 :=
  if dim g == 0%N then Ok (mkDense3 (0 : 'M[R]_(3, 1)))
  else
    let param := param data in
    let a := get_aperture param in
    do columns <- mapM (project_cell u a) (iota 0 (num_cells g));
    Ok (mkDense3 (\matrix_(r < 3, c < num_cells g)
                    (nth 0 columns c) r 0)).

End Project.

End Model.

(* ---------------------------------------------------------------------- *)
(*  Two small grids over the rationals                                    *)
(* ---------------------------------------------------------------------- *)

(* SecondOrderTensor.rotate on one cell: K becomes R K R^T. *)
Definition rot_cell (Rm K : 'M[rat]_3) : 'M[rat]_3 := Rm *m K *m Rm^T.

(* One cell on the segment from (0, 0, 0) to (0, 0, 1): two faces, which are
   its end points; the normal of the first one points into the cell. *)
Definition seg_grid : Grid rat :=
  @mkGrid rat 1 1 2 2
    (of_fun 2 1 (fun f _ => if f == 0%N then -1 else 1))
    (of_fun 2 2 (fun n f => n == f))
    (of_fun 1 1 (fun _ _ => 1))
    (of_fun 1 2 (fun _ _ => 1)).

(* Its image under map_grid: the segment lies on the third axis, which is
   the active one; no rotation is needed. *)
Definition seg_mapped : MappedGrid seg_grid :=
  @mkMappedGrid rat seg_grid
    (of_fun 1 1 (fun _ _ => 2%:R^-1))
    (of_fun 1 2 (fun _ _ => 1))
    (of_fun 1 2 (fun _ f => f%:R))
    1%:M
    (of_fun 1 3 (fun _ r => r == 2%N))
    (of_fun 1 2 (fun _ n => n%:R)).

(* The heap holds one tensor, the identity in every cell. *)
Definition seg_heap : heap rat :=
  [:: mkTensor 3 (fun i j _ => (i == j)%:R)].

(* Dirichlet conditions on both end points. *)
Definition seg_bc : BoundaryCondition rat 2 :=
  mkBC (of_fun 1 2 (fun _ _ => true)) (of_fun 1 2 (fun _ _ => false))
       (of_fun 1 2 (fun _ _ => false)) (of_fun 1 2 (fun _ _ => false))
       (of_fun 1 2 (fun _ _ => 1)).

(* Every flag set on both end points, the first of which is internal. *)
Definition seg_bc_internal : BoundaryCondition rat 2 :=
  mkBC (of_fun 1 2 (fun _ _ => true)) (of_fun 1 2 (fun _ _ => true))
       (of_fun 1 2 (fun _ _ => true)) (of_fun 1 2 (fun _ f => f == 0%N))
       (of_fun 1 2 (fun _ _ => 1)).

(* Boundary values 1 and 2, unit aperture, and the source f. *)
Definition seg_data_with (bc : option (BoundaryCondition rat 2))
    (bc_val : option 'rV[rat]_2) (f : seq rat) : Data seg_grid :=
  mkData (@mkParameters rat seg_grid 0 bc bc_val f
            (of_fun 1 1 (fun _ _ => 1)))
         None.

Definition seg_bc_val : 'rV[rat]_2 := of_fun 1 2 (fun _ f => f.+1%:R).

Definition seg_data : Data seg_grid :=
  seg_data_with (Some seg_bc) (Some seg_bc_val) [:: 5%:R].

(* A unit flux through both end points. *)
Definition seg_u : 'rV[rat]_2 := of_fun 1 2 (fun _ _ => 1).

(* A point grid: dimension 0, one cell and one face. *)
Definition point_grid : Grid rat :=
  @mkGrid rat 0 1 1 1
    (of_fun 1 1 (fun _ _ => 1))
    (of_fun 1 1 (fun _ _ => true))
    (of_fun 1 1 (fun _ _ => 1))
    (of_fun 1 1 (fun _ _ => 1)).

Definition point_mapped : MappedGrid point_grid :=
  @mkMappedGrid rat point_grid
    (of_fun 0 1 (fun _ _ => 0)) (of_fun 0 1 (fun _ _ => 0))
    (of_fun 0 1 (fun _ _ => 0)) 1%:M (of_fun 1 3 (fun _ _ => true))
    (of_fun 0 1 (fun _ _ => 0)).

Definition point_data : Data point_grid :=
  mkData (@mkParameters rat point_grid 0 None None [:: 5%:R]
            (of_fun 1 1 (fun _ _ => 1)))
         None.



(* ====================================================================== *)
(*  Properties                                                            *)
(* ====================================================================== *)

(* ---------------------------------------------------------------------- *)
(*  Reading arrays                                                        *)
(* ---------------------------------------------------------------------- *)

Section ArrayFacts.

Variable R : realFieldType.

Lemma mx_get_ord m n (A : 'M[R]_(m, n)) (i : 'I_m) (j : 'I_n) :
  mx_get A i j = A i j.
Proof. by rewrite /mx_get /get !valK. Qed.

Lemma getE (T : Type) (x0 : T) m n (A : 'M[T]_(m, n)) (i j : nat)
    (hi : (i < m)%N) (hj : (j < n)%N) :
  get x0 A i j = A (Ordinal hi) (Ordinal hj).
Proof. by rewrite /get !insubT. Qed.

Lemma get_out (T : Type) (x0 : T) m n (A : 'M[T]_(m, n)) (i j : nat) :
  (n <= j)%N -> get x0 A i j = x0.
Proof.
move=> le_nj; rewrite /get; case: (insub i) => // i'.
by rewrite insubF // ltnNge le_nj.
Qed.

Lemma get_row (T : Type) (x0 : T) n (v : 'rV[T]_n) (j : 'I_n) :
  get x0 v 0 j = v 0 j.
Proof.
rewrite /get valK (insubT (fun i => (i < 1)%N) (ltn0Sn 0)) /=.
by congr (v _ _); apply: val_inj.
Qed.


Lemma lshift_rshift_neq m n (i : 'I_m) (j : 'I_n) :
  (lshift n i == rshift m j) = false.
Proof.
apply/negbTE; rewrite -val_eqE /= neq_ltn.
by rewrite (leq_trans (ltn_ord i)) // leq_addr.
Qed.

Lemma get_lshift_rshift m1 m2 n1 n2 (A : 'M[R]_(m1 + m2, n1 + n2))
    (i : 'I_m1) (j : 'I_n2) :
  mx_get A i (n1 + j) = A (lshift m2 i) (rshift n1 j).
Proof. exact: (mx_get_ord A (lshift m2 i) (rshift n1 j)). Qed.

Lemma get_rshift_lshift m1 m2 n1 n2 (A : 'M[R]_(m1 + m2, n1 + n2))
    (i : 'I_m2) (j : 'I_n1) :
  mx_get A (m1 + i) j = A (rshift m1 i) (lshift n2 j).
Proof. exact: (mx_get_ord A (rshift m1 i) (lshift n2 j)). Qed.

End ArrayFacts.

(* ---------------------------------------------------------------------- *)
(*  Index arrays and masks                                                *)
(* ---------------------------------------------------------------------- *)

Section IndexArrays.

Variable R : realFieldType.

Lemma get_and_not n (a b : 'rV[bool]_n) (i : nat) :
  get false (and_not a b) 0 i = get false a 0 i && ~~ get false b 0 i.
Proof.
case: (ltnP i n) => [lt_in | le_ni]; last by rewrite !get_out.
by rewrite -[i]/(val (Ordinal lt_in)) !get_row mxE.
Qed.

Lemma mem_where n (mask : 'rV[bool]_n) (i : nat) :
  (i \in np_where mask) = get false mask 0 i.
Proof.
rewrite mem_filter mem_iota /= add0n.
by case: (ltnP i n) => [|/(get_out false mask 0)->]; rewrite ?andbT ?andbF.
Qed.

Lemma where_uniq n (mask : 'rV[bool]_n) : uniq (np_where mask).
Proof. by rewrite filter_uniq // iota_uniq. Qed.

Lemma where_lt n (mask : 'rV[bool]_n) (i : nat) :
  i \in np_where mask -> (i < n)%N.
Proof. by rewrite mem_filter mem_iota => /andP[_]. Qed.

(* With a sign for every face the stages return. *)
Lemma where_in_range n (mask : 'rV[bool]_n) (s : seq R) :
  (n <= size s)%N -> all (fun i => (i < size s)%N) (np_where mask).
Proof.
move=> le_ns; apply/allP => i /where_lt lt_in; exact: leq_trans lt_in le_ns.
Qed.

Lemma anyE n (mask : 'rV[bool]_n) : np_any mask = (np_where mask != [::]).
Proof. by rewrite /np_any /np_where has_filter. Qed.

Lemma any_false n (mask : 'rV[bool]_n) (i : nat) :
  np_any mask = false -> get false mask 0 i = false.
Proof.
by rewrite anyE => /negbFE/eqP E; rewrite -mem_where E.
Qed.

Lemma map_cst (A B : Type) (x : B) (s : seq A) :
  [seq x | _ <- s] = nseq (size s) x.
Proof. by elim: s => //= _ s ->. Qed.

Lemma zip_map_self (A B : Type) (f : A -> B) (s : seq A) :
  zip [seq f x | x <- s] s = [seq (f x, x) | x <- s].
Proof. by elim: s => //= x s ->. Qed.

Lemma zip_self_map (A B : Type) (f : A -> B) (s : seq A) :
  zip s [seq f x | x <- s] = [seq (x, f x) | x <- s].
Proof. by elim: s => //= x s ->. Qed.

Lemma nth_assign_map (f : nat -> R) (idx : seq nat) (v : seq R) (i : nat) :
  uniq idx ->
  nth 0 (assign v idx [seq f k | k <- idx]) i =
  if i \in idx then f i else nth 0 v i.
Proof.
rewrite /assign; elim: idx v => [|k idx IH] v //= /andP[k_notin uniq_idx].
rewrite IH // in_cons nth_set_nth /=.
case: (i =P k) => [->|_] //=.
by rewrite (negPf k_notin).
Qed.

Lemma nth_iadd_map (f : nat -> R) (idx : seq nat) (v : seq R) (i : nat) :
  uniq idx ->
  nth 0 (iadd v idx [seq f k | k <- idx]) i =
  if i \in idx then nth 0 v i + f i else nth 0 v i.
Proof.
move=> uniq_idx; rewrite /iadd zip_self_map -map_comp.
exact: (nth_assign_map (fun k => nth 0 v k + f k)).
Qed.

Lemma take_idxP (v : seq R) (idx : seq nat) (s : seq R) :
  take_idx v idx = Ok s -> s = [seq nth 0 v i | i <- idx].
Proof. by rewrite /take_idx; case: ifP => // _ [<-]. Qed.

Lemma take_idx_ok (v : seq R) (idx : seq nat) :
  all (fun i => (i < size v)%N) idx ->
  take_idx v idx = Ok [seq nth 0 v i | i <- idx].
Proof. by rewrite /take_idx => ->. Qed.

Lemma take_idx_exn (v : seq R) (idx : seq nat) e :
  take_idx v idx = Raise e -> e = IndexError.
Proof. by rewrite /take_idx; case: ifP => // _ [<-]. Qed.

Lemma nth_diagonal n (A : 'M[R]_n) (i : 'I_n) : nth 0 (diagonal A) i = A i i.
Proof.
rewrite /diagonal (nth_map 0%N) ?size_iota // nth_iota // add0n.
by rewrite mx_get_ord.
Qed.

End IndexArrays.

(* ---------------------------------------------------------------------- *)
(*  The local mass matrix                                                 *)
(* ---------------------------------------------------------------------- *)

Section MassProofs.

Variable R : realFieldType.









End MassProofs.

(* ---------------------------------------------------------------------- *)
(*  The reference mass matrix of the unit segment                         *)
(* ---------------------------------------------------------------------- *)

Section Reference.

Lemma sum2 (F : 'I_2 -> rat) : \sum_i F i = F 0 + F 1.
Proof.
rewrite !big_ord_recl big_ord0 addr0.
by congr (F _ + F _); apply: val_inj.
Qed.

Lemma HB_matrix_dim1 (i j : 'I_(size_HB 1)) :
  HB_matrix rat 1 i j = if i == j then 3%:R^-1 else 6%:R^-1.
Proof.
rewrite !mxE /HB_bands /arange /= !big_cons big_nil !mxE /=.
case: i j => [[|[|i]] lti] [[|[|j]] ltj] //=; by apply/eqP.
Qed.

(* The unit segment with unit permeability: the RT0 mass matrix is
   1/3 on the diagonal and 1/6 off it. *)
Example massHdiv_unit_segment :
  exists2 A,
    massHdiv (1%:M : 'M[rat]_1) 1 (of_fun 1 2 (fun _ j => (j == 0%N)%:R))
      (of_fun 1 2 (fun _ j => if j == 0%N then -1 else 1)) (HB_matrix rat 1)
    = Ok A
    & [/\ A 0 0 = 3%:R^-1, A 0 1 = 6%:R^-1, A 1 0 = 6%:R^-1 & A 1 1 = 3%:R^-1].
Proof.
move: (HB_matrix rat 1) HB_matrix_dim1 => HB HBE.
rewrite /massHdiv unitmx1 invmx1; eexists; first by [].
split; rewrite !(sum2, mxE, HBE) /bd_fun /= /mx_get !getE // !mxE /=;
  by apply/eqP.
Qed.

End Reference.

(* ---------------------------------------------------------------------- *)
(*  The heap                                                              *)
(* ---------------------------------------------------------------------- *)

Section HeapProofs.

Variable R : realFieldType.
Variable rotate_perm : 'M[R]_3 -> 'M[R]_3 -> 'M[R]_3.

Lemma set_nth_size_rcons (T : Type) (x0 : T) (s : seq T) (x y : T) :
  set_nth x0 (rcons s x) (size s) y = rcons s y.
Proof. by elim: s => //= a s ->. Qed.

Lemma take_size_rcons (T : Type) (s : seq T) (x : T) :
  take (size s) (rcons s x) = s.
Proof. by rewrite -cats1 take_size_cat. Qed.

Lemma matrix_heap (g : Grid R) (mg : MappedGrid g) (data : Data g) bw
    (h : heap R) :
  take (size h) (matrix rotate_perm mg data bw h).2 = h.
Proof.
rewrite /matrix; case: ifP => _; first by rewrite /pure_result /= take_size.
rewrite /bindH; case: ifP => _; last by rewrite /ret /= take_size.
rewrite /tensor_copy /tensor_rotate /=.
case: ifP => _ /=; last by rewrite take_size_rcons.
rewrite /tensor_delete /ret /= !set_nth_size_rcons.
by rewrite take_size_rcons.
Qed.

End HeapProofs.

(* ---------------------------------------------------------------------- *)
(*  The boundary rows of the matrix and its blocks                        *)
(* ---------------------------------------------------------------------- *)

Section MatrixProofs.

Variable R : realFieldType.
Variable rotate_perm : 'M[R]_3 -> 'M[R]_3 -> 'M[R]_3.
Variables (g : Grid R) (mg : MappedGrid g).

Implicit Types (bc : BoundaryCondition R (num_faces g))
  (M : 'M[R]_(num_faces g + num_cells g)).

(* the non-internal faces flagged by [flag], as np.where lists them *)
Lemma mem_where_and_not (flag : 'rV[bool]_(num_faces g)) bc (i : nat) :
  (i \in np_where (and_not flag (is_internal bc))) = on_boundary flag bc i.
Proof. by rewrite mem_where get_and_not. Qed.

Lemma neumann_rowsE bc norm M i j :
  neumann_rows bc norm M i j =
  if on_boundary (is_neu bc) bc i then (if i == j then norm else 0) else M i j.
Proof.
rewrite /neumann_rows -mem_where_and_not anyE.
case: eqP => [-> | _] /=; first by [].
rewrite -map_cst !mxE.
rewrite (nth_assign_map (fun=> norm)) ?where_uniq // nth_diagonal mxE.
by case: (_ \in _); case: eqP => // ->.
Qed.

Lemma robin_diagonalE bc M :
  exists2 M', robin_diagonal bc M = Ok M' &
    forall i j, M' i j = M i j +
      (if (i == j) && on_boundary (is_rob bc) bc i
       then 1 / (mx_get (robin_weight bc) 0 i * mx_get (face_areas g) 0 i)
       else 0).
Proof.
rewrite /robin_diagonal anyE.
case: eqP => [E | _] /=.
  exists M => // i j; rewrite -mem_where_and_not E in_nil andbF addr0 //.
eexists; first by [].
move=> i j; rewrite !mxE -mem_where_and_not.
rewrite (nth_assign_map
  (fun k => 1 / (mx_get (robin_weight bc) 0 k * mx_get (face_areas g) 0 k)))
  ?where_uniq // nth_nseq if_same.
by case: eqP => _ //=; rewrite if_same.
Qed.

Lemma neumann_rows_internal bc norm M (f : 'I_(num_faces g)) j :
  is_internal bc 0 f ->
  neumann_rows bc norm M (lshift (num_cells g) f) j
  = M (lshift (num_cells g) f) j.
Proof.
by move=> int_f; rewrite neumann_rowsE /on_boundary /= !get_row int_f andbF.
Qed.

Lemma robin_diagonal_internal bc M (f : 'I_(num_faces g)) :
  is_internal bc 0 f ->
  exists2 M', robin_diagonal bc M = Ok M' &
    forall j, M' (lshift (num_cells g) f) j = M (lshift (num_cells g) f) j.
Proof.
move=> int_f; have [M' E EM'] := robin_diagonalE bc M; exists M' => // j.
by rewrite EM' /on_boundary /= !get_row int_f !andbF addr0.
Qed.

(* the saddle-point matrix before the boundary conditions *)
Lemma assemble_inv (k : Tensor R) obc a bw A w :
  assemble mg k obc a bw = Ok (A, w) ->
  exists bc mass norm M,
    [/\ obc = Some bc,
        robin_diagonal bc
          (neumann_rows bc norm
             (block_mx mass (- (cell_faces g)^T)^T (- (cell_faces g)^T) 0))
        = Ok M
      & A = mkSq M].
Proof.
rewrite /assemble; case: (mapM _ _) => [cells|] //=.
case: ifP => // _; case: obc => [bc|] //.
case E: (robin_diagonal _ _) => [M|] //= [<- _].
by exists bc; do 3!eexists; split; first by []; first exact: E.
Qed.

Lemma matrix_inv (data : Data g) bw h A w h' :
  dim g != 0%N ->
  matrix rotate_perm mg data bw h = (Ok (A, w), h') ->
  exists k,
    assemble mg k (get_bc (param data)) (get_aperture (param data)) bw
    = Ok (A, w).
Proof.
move=> /negPf dimN0; rewrite /matrix dimN0 /bindH.
case: ifP => _; last by rewrite /ret => -[E _]; eexists; exact: E.
rewrite /tensor_copy /tensor_rotate /=; case: ifP => _ //=.
by rewrite /ret => -[E _]; eexists; exact: E.
Qed.

Lemma final_blocks bc mass norm M :
  robin_diagonal bc
    (neumann_rows bc norm
       (block_mx mass (- (cell_faces g)^T)^T (- (cell_faces g)^T) 0)) = Ok M ->
  forall (f : 'I_(num_faces g)) (c : 'I_(num_cells g)),
    M (rshift (num_faces g) c) (lshift (num_cells g) f) = - cell_faces g f c /\
    M (lshift (num_cells g) f) (rshift (num_faces g) c) =
      if on_boundary (is_neu bc) bc f then 0 else - cell_faces g f c.
Proof.
set M0 := block_mx _ _ _ _ => EM f c.
have [M' ] := robin_diagonalE bc (neumann_rows bc norm M0).
rewrite EM => -[<-] EM'; rewrite !EM' !neumann_rowsE.
rewrite lshift_rshift_neq eq_sym lshift_rshift_neq /= !addr0.
rewrite {1}/on_boundary get_out ?leq_addr //=.
by rewrite /M0 block_mxEdl block_mxEur !mxE; case: ifP.
Qed.

Lemma matrix_block_entries (data : Data g) bw h A w h' :
  dim g != 0%N ->
  matrix rotate_perm mg data bw h = (Ok (A, w), h') ->
  exists2 bc, get_bc (param data) = Some bc &
    forall f c, (f < num_faces g)%N -> (c < num_cells g)%N ->
      entry A (num_faces g + c) f = - mx_get (cell_faces g) f c /\
      entry A f (num_faces g + c) =
        if on_boundary (is_neu bc) bc f then 0
        else entry A (num_faces g + c) f.
Proof.
move=> dimN0 /(matrix_inv dimN0)[k].
move=> /assemble_inv[bc [mass [norm [M [Ebc EM ->]]]]].
exists bc => // f c lt_f lt_c; rewrite /entry /=.
have [E1 E2] := final_blocks EM (Ordinal lt_f) (Ordinal lt_c).
rewrite -[f]/(val (Ordinal lt_f)) -[c]/(val (Ordinal lt_c)).
by rewrite get_lshift_rshift get_rshift_lshift E1 E2 mx_get_ord.
Qed.

End MatrixProofs.

(* ---------------------------------------------------------------------- *)
(*  The stages of rhs                                                     *)
(* ---------------------------------------------------------------------- *)

Section RhsProofs.

Variable R : realFieldType.
Variable g : Grid R.

Implicit Types (bc : BoundaryCondition R (num_faces g))
  (bc_val : 'rV[R]_(num_faces g)).

Lemma rhs_dirichlet_nth bc bc_val sign r r' (f : nat) :
  rhs_dirichlet bc bc_val sign r = Ok r' ->
  nth 0 r' f =
  if on_boundary (is_dir bc) bc f
  then nth 0 r f + - nth 0 sign f * mx_get bc_val 0 f else nth 0 r f.
Proof.
rewrite /rhs_dirichlet /on_boundary -get_and_not.
case: ifP => [_ | /any_false-> [<-] //].
case E: (take_idx _ _) => [s|] //= [<-]; rewrite (take_idxP E).
rewrite zip_map_self -map_comp.
rewrite (nth_iadd_map (fun k => - nth 0 sign k * mx_get bc_val 0 k))
  ?where_uniq //.
by rewrite mem_where.
Qed.

Lemma rhs_robin_nth bc bc_val sign r r' (f : nat) :
  rhs_robin bc bc_val sign r = Ok r' ->
  nth 0 r' f =
  if on_boundary (is_rob bc) bc f
  then nth 0 r f
       + - nth 0 sign f * mx_get bc_val 0 f / mx_get (robin_weight bc) 0 f
  else nth 0 r f.
Proof.
rewrite /rhs_robin /on_boundary -get_and_not.
case: ifP => [_ | /any_false-> [<-] //].
case E: (take_idx _ _) => [s|] //= [<-]; rewrite (take_idxP E).
rewrite zip_map_self -map_comp.
rewrite (nth_iadd_map (fun k => - nth 0 sign k * mx_get bc_val 0 k
                                  / mx_get (robin_weight bc) 0 k))
  ?where_uniq //.
by rewrite mem_where.
Qed.

Lemma rhs_neumann_nth bc bc_val w sign r r' (f : nat) :
  rhs_neumann bc bc_val w sign r = Ok r' ->
  nth 0 r' f =
  if on_boundary (is_neu bc) bc f
  then nth 0 sign f * w * mx_get bc_val 0 f else nth 0 r f.
Proof.
rewrite /rhs_neumann /on_boundary -get_and_not.
case: ifP => [_ | /any_false-> [<-] //].
case E: (take_idx _ _) => [s|] //= [<-]; rewrite (take_idxP E).
rewrite zip_map_self -map_comp.
rewrite (nth_assign_map (fun k => nth 0 sign k * w * mx_get bc_val 0 k))
  ?where_uniq //.
by rewrite mem_where.
Qed.

(* The stages raise nothing but IndexError. *)
Lemma rhs_dirichlet_exn bc bc_val sign r e :
  rhs_dirichlet bc bc_val sign r = Raise e -> e = IndexError.
Proof.
rewrite /rhs_dirichlet; case: ifP => // _.
by case E: (take_idx _ _) => [s|e'] //= [<-]; apply: take_idx_exn E.
Qed.

Lemma rhs_robin_exn bc bc_val sign r e :
  rhs_robin bc bc_val sign r = Raise e -> e = IndexError.
Proof.
rewrite /rhs_robin; case: ifP => // _.
by case E: (take_idx _ _) => [s|e'] //= [<-]; apply: take_idx_exn E.
Qed.

Lemma rhs_neumann_exn bc bc_val w sign r e :
  rhs_neumann bc bc_val w sign r = Raise e -> e = IndexError.
Proof.
rewrite /rhs_neumann; case: ifP => // _.
by case E: (take_idx _ _) => [s|e'] //= [<-]; apply: take_idx_exn E.
Qed.

Lemma rhs_dirichlet_ok bc bc_val sign r :
  (num_faces g <= size sign)%N ->
  exists r', rhs_dirichlet bc bc_val sign r = Ok r'.
Proof.
move=> le_F; rewrite /rhs_dirichlet; case: ifP => _; last by exists r.
by rewrite take_idx_ok ?where_in_range //=; eexists.
Qed.

Lemma rhs_robin_ok bc bc_val sign r :
  (num_faces g <= size sign)%N -> exists r', rhs_robin bc bc_val sign r = Ok r'.
Proof.
move=> le_F; rewrite /rhs_robin; case: ifP => _; last by exists r.
by rewrite take_idx_ok ?where_in_range //=; eexists.
Qed.

Lemma rhs_neumann_ok bc bc_val w sign r :
  (num_faces g <= size sign)%N ->
  exists r', rhs_neumann bc bc_val w sign r = Ok r'.
Proof.
move=> le_F; rewrite /rhs_neumann; case: ifP => _; last by exists r.
by rewrite take_idx_ok ?where_in_range //=; eexists.
Qed.

End RhsProofs.

(* ---------------------------------------------------------------------- *)
(*  The vector rhs returns                                                *)
(* ---------------------------------------------------------------------- *)

Section RhsResults.

Variable R : realFieldType.

Lemma mem_find_rows m n (A : 'M[R]_(m, n)) (i : nat) :
  (i \in [seq t.1.1 | t <- sps_find A]) =
  (i < m)%N && has (fun j => mx_get A i j != 0) (iota 0 n).
Proof.
apply/mapP/andP => [[[[i' j] x]] /flattenP[s /mapP[j' j'_in ->]]
                   | [lt_im /hasP[j j_in nz]]].
  move=> /mapP[i'' ]; rewrite mem_filter mem_iota /= add0n.
  move=> /andP[nz lt_i] [-> _ _] /= ->.
  by split=> //; apply/hasP; exists j'.
exists (i, j, mx_get A i j) => //.
apply/flattenP.
exists [seq (i0, j, mx_get A i0 j) | i0 <- iota 0 m & mx_get A i0 j != 0].
  by apply/mapP; exists j.
by apply/mapP; exists i => //; rewrite mem_filter nz mem_iota.
Qed.

Lemma size_face_sign (g : Grid R) :
  faces_covered g -> size (face_sign g) = num_faces g.
Proof.
move=> /allP cov; rewrite /face_sign /np_unique_index !size_map size_sort.
rewrite -[RHS](size_iota 0). apply: perm_size; apply: uniq_perm;
  rewrite ?undup_uniq ?iota_uniq //.
move=> f; rewrite mem_undup mem_find_rows mem_iota /= add0n.
by case lt_f: (f < _)%N => //=; apply: cov; rewrite mem_iota.
Qed.

Lemma rhs_values_of_ok (g : Grid R) (data : Data g) (w : R)
    (bc : BoundaryCondition R (num_faces g)) (bc_val : 'rV[R]_(num_faces g)) r :
  dim g != 0%N ->
  get_bc (param data) = Some bc -> get_bc_val (param data) = Some bc_val ->
  rhs data w = Ok r ->
  forall f,
    let sign := nth 0 (face_sign g) f in
    let dirichlet := if on_boundary (is_dir bc) bc f
                     then - sign * mx_get bc_val 0 f else 0 in
    let robin := if on_boundary (is_rob bc) bc f
                 then - sign * mx_get bc_val 0 f / mx_get (robin_weight bc) 0 f
                 else 0 in
    nth 0 r f = if on_boundary (is_neu bc) bc f
                then sign * w * mx_get bc_val 0 f
                else dirichlet + robin.
Proof.
move=> /negPf dimN0 Ebc Eval; rewrite /rhs dimN0 Ebc Eval /=.
case E1: (rhs_dirichlet _ _ _ _) => [r1|e] //=.
case E2: (rhs_robin _ _ _ _) => [r2|e] //=.
case E3: (rhs_neumann _ _ _ _ _) => [r3|e] //= [<-] f.
rewrite (rhs_neumann_nth f E3) (rhs_robin_nth f E2) (rhs_dirichlet_nth f E1).
rewrite nth_nseq if_same add0r.
by case: ifP => // _; case: ifP => _; case: ifP => _ //; rewrite ?addr0 ?add0r.
Qed.

Lemma rhs_returns (g : Grid R) (data : Data g) (w : R) :
  dim g != 0%N ->
  isSome (get_bc (param data)) -> isSome (get_bc_val (param data)) ->
  faces_covered g ->
  exists r, rhs data w = Ok r.
Proof.
move=> /negPf dimN0; rewrite /rhs dimN0.
case: (get_bc _) => [bc|] //; case: (get_bc_val _) => [bc_val|] //= _ _ cov.
have le_F : (num_faces g <= size (face_sign g))%N by rewrite size_face_sign.
set r0 := nseq _ _.
have [r1 ->] := rhs_dirichlet_ok bc bc_val r0 le_F.
have [r2 /= ->] := rhs_robin_ok bc bc_val r1 le_F.
have [r3 /= ->] := rhs_neumann_ok bc bc_val w r2 le_F.
by exists r3.
Qed.

Lemma rhs_assert_spec (g : Grid R) (data : Data g) (w : R) :
  dim g != 0%N ->
  (rhs data w = Raise AssertionError <->
     isSome (get_bc (param data)) != isSome (get_bc_val (param data))) /\
  (get_bc (param data) = None -> get_bc_val (param data) = None ->
     ndof (IsGrid g) = Ok (num_cells g + num_faces g)%N /\
     rhs data w = Ok (nseq (num_cells g + num_faces g) 0)).
Proof.
move=> /negPf dimN0; rewrite /rhs dimN0.
case: (get_bc _) => [bc|]; case: (get_bc_val _) => [bc_val|] //=; split=> //.
split=> //.
case E1: (rhs_dirichlet _ _ _ _) => [r1|e] /=;
  last by rewrite (rhs_dirichlet_exn E1).
case E2: (rhs_robin _ _ _ _) => [r2|e] /=; last by rewrite (rhs_robin_exn E2).
by case E3: (rhs_neumann _ _ _ _ _) => [r3|e] //=; rewrite (rhs_neumann_exn E3).
Qed.

Lemma rhs_internal_face (g : Grid R) (data : Data g) (w : R)
    (bc : BoundaryCondition R (num_faces g)) r (f : nat) :
  dim g != 0%N -> get_bc (param data) = Some bc ->
  get false (is_internal bc) 0 f -> rhs data w = Ok r -> nth 0 r f = 0.
Proof.
move=> /negPf dimN0 Ebc int_f; rewrite /rhs dimN0 Ebc.
case: (get_bc_val _) => [bc_val|] //=.
case E1: (rhs_dirichlet _ _ _ _) => [r1|e] //=.
case E2: (rhs_robin _ _ _ _) => [r2|e] //=.
case E3: (rhs_neumann _ _ _ _ _) => [r3|e] //= [<-].
rewrite (rhs_neumann_nth f E3) (rhs_robin_nth f E2) (rhs_dirichlet_nth f E1).
by rewrite /on_boundary int_f !andbF nth_nseq if_same.
Qed.

(* The source term is not read when the grid has a positive dimension. *)
Lemma rhs_source_unused (g : Grid R) (p : Parameters g) tang (w : R)
    (f1 f2 : seq R) :
  let data f :=
    mkData (mkParameters (get_tensor p) (get_bc p) (get_bc_val p) f
              (get_aperture p)) tang in
  dim g != 0%N -> rhs (data f1) w = rhs (data f2) w.
Proof. by move=> data /negPf dimN0; rewrite /rhs /= dimN0. Qed.

End RhsResults.

(* ---------------------------------------------------------------------- *)
(*  The columns of project_u                                              *)
(* ---------------------------------------------------------------------- *)

Section ProjectProofs.

Variable R : realFieldType.
Variables (g : Grid R) (mg : MappedGrid g).

Lemma scatter_inactive (v : 'cV[R]_(dim g)) (l : 'cV[R]_3) (r : 'I_3) :
  scatter (active_dim mg) v = Ok l -> ~~ active_dim mg 0 r -> l r 0 = 0.
Proof.
by rewrite /scatter; case: ifP => // _ [<-] /negPf; rewrite mxE => ->.
Qed.

Lemma project_cells_inv u a (s : seq nat) (columns : seq 'cV[R]_3) :
  mapM (project_cell mg u a) s = Ok columns ->
  exists2 locals : seq 'cV[R]_3,
    columns = [seq (rotation mg)^T *m l | l <- locals] &
    forall l r, l \in locals -> ~~ active_dim mg 0 r -> l r 0 = 0.
Proof.
elim: s columns => [|c s IH] columns /=; first by case=> <-; exists [::].
rewrite {1}/project_cell; case: ifP => // _.
case El: (scatter _ _) => [l|] //=.
case Es: (mapM _ _) => [cols|] //= [<-].
have [locals -> zero_locals] := IH _ Es.
exists (l :: locals) => // l' r; rewrite in_cons => /orP[/eqP->|];
  last exact: zero_locals.
exact: scatter_inactive El.
Qed.

Lemma project_u_columns (u : 'rV[R]_(num_faces g)) (data : Data g) P :
  project_u mg u data = Ok P ->
  exists2 V : 'M[R]_(3, ncols P),
    values P = (rotation mg)^T *m V &
    forall r c, ~~ active_dim mg 0 r -> V r c = 0.
Proof.
rewrite /project_u; case: ifP => _.
  by case=> <- /=; exists 0 => [|r c _]; rewrite ?mulmx0 ?mxE.
case Es: (mapM _ _) => [columns|] //= [<-] /=.
have [locals -> zero_locals] := project_cells_inv Es.
exists (\matrix_(r, c) (nth 0 locals c) r 0) => [|r c inactive]; last first.
  rewrite mxE; case: (ltnP c (size locals)) => [lt_c|le_c].
    by apply: zero_locals inactive; apply: mem_nth.
  by rewrite nth_default // mxE.
apply/matrixP => r c; rewrite !mxE.
case: (ltnP c (size locals)) => [lt_c|le_c].
  by rewrite (nth_map 0) // mxE; apply: eq_bigr => k _; rewrite mxE.
rewrite nth_default ?size_map // mxE big1 // => k _.
by rewrite [X in _ * X]mxE nth_default // [X in _ * X]mxE mulr0.
Qed.

(* the mask of the active dimensions fits the dimension of the grid *)
Lemma project_cells_ok u a (s : seq nat) :
  (size (np_where (active_dim mg)) == dim g) || (dim g == 1%N) ->
  all (is_simplex g) s ->
  exists columns, mapM (project_cell mg u a) s = Ok columns.
Proof.
move=> fits; elim: s => [|c s IH] /=; first by exists [::].
case/andP=> simplex_c /IH[columns ->].
by rewrite /project_cell simplex_c /scatter fits /=; eexists.
Qed.

Lemma project_u_returns (u : 'rV[R]_(num_faces g)) (data : Data g) :
  (size (np_where (active_dim mg)) == dim g) || (dim g == 1%N) ->
  all (is_simplex g) (iota 0 (num_cells g)) ->
  exists P, project_u mg u data = Ok P.
Proof.
move=> fits simplices; rewrite /project_u; case: ifP => _; first by eexists.
have [columns ->] :=
  project_cells_ok u (get_aperture (param data)) fits simplices.
by eexists.
Qed.

End ProjectProofs.

(* ---------------------------------------------------------------------- *)
(*  The discretisation of the segment                                     *)
(* ---------------------------------------------------------------------- *)

Section Segment.

Lemma seg_local_faces : local_faces seg_grid 0 = [:: 0; 1]%N.
Proof.
rewrite /local_faces /= /mx_get !getE // !mxE /=.
by [].
Qed.

Lemma seg_opposite : opposite_side_node seg_grid [:: 0; 1]%N = [:: 1; 0]%N.
Proof.
rewrite /opposite_side_node /nodes_of_face /= !getE // !mxE /=.
by [].
Qed.

Lemma seg_simplex : is_simplex seg_grid 0.
Proof. by rewrite /is_simplex seg_local_faces seg_opposite. Qed.

Lemma seg_local_matrix (k : Tensor rat) :
  perm_shape k = 1%N -> perm k 0 0 0 = 1 ->
  exists A, local_matrix seg_mapped k (get_aperture (param seg_data))
              (HB_matrix rat 1) 0 = Ok ([:: 0; 1]%N, A).
Proof.
move=> shape_k k00; rewrite /local_matrix seg_simplex seg_local_faces.
rewrite /cell_perm shape_k /= /massHdiv.
set K := (X in X \in unitmx).
have -> : K \in unitmx.
  by rewrite unitmxE det_mx11 mxE /= /mx_get getE // mxE k00 mulr1 unitr1.
by eexists.
Qed.

Lemma seg_assemble (k : Tensor rat) :
  perm_shape k = 1%N -> perm k 0 0 0 = 1 ->
  exists (M : 'M[rat]_(2 + 1)) w,
    assemble seg_mapped k (get_bc (param seg_data))
      (get_aperture (param seg_data)) true = Ok (mkSq M, Some w).
Proof.
move=> shape_k k00; have [A EA] := seg_local_matrix shape_k k00.
rewrite /assemble /= EA /=.
set M0 := neumann_rows _ _ _.
have [M EM _] := robin_diagonalE (g := seg_grid) seg_bc M0.
by rewrite EM /=; do 2!eexists.
Qed.

Lemma seg_matrix_returns :
  exists (M : 'M[rat]_(2 + 1)) w h',
    matrix rot_cell seg_mapped seg_data true seg_heap
    = (Ok (mkSq M, Some w), h').
Proof.
rewrite /matrix /= /bindH /tensor_copy /tensor_rotate /=.
rewrite /tensor_delete /ret /=.
set k := (X in assemble _ X).
have shape_k : perm_shape k = 1%N.
  by rewrite /k /= /kept /np_where /= !getE // !mxE.
have k00 : perm k 0 0 0 = 1.
  rewrite /k /= /kept /np_where /= !getE // !mxE /=.
  by rewrite /rot_cell mul1mx trmx1 mulmx1 /mx_get getE // mxE.
have [M [w E]] := seg_assemble shape_k k00.
by exists M, w; eexists; congr (_, _); exact: E.
Qed.

Lemma seg_face_sign : face_sign seg_grid = [:: -1; 1].
Proof.
by rewrite /face_sign /sps_find /= /mx_get !getE // !mxE /= !getE // !mxE.
Qed.

Lemma seg_faces_covered : faces_covered seg_grid.
Proof. by rewrite /faces_covered /= /mx_get !getE // !mxE. Qed.

Lemma seg_local_velocity :
  mx_get (local_velocity seg_mapped seg_u (get_aperture (param seg_data)) 0) 0 0
  = 1.
Proof.
rewrite /mx_get getE // /local_velocity seg_local_faces seg_opposite /=.
rewrite mxE [(_ *m _) _ _]mxE !big_ord_recl big_ord0 !mxE /=.
rewrite !big_ord_recl !big_ord0 !mxE /=.
rewrite /mx_get !getE // !mxE /=.
by apply/eqP.
Qed.

Lemma seg_project_u :
  exists2 P, project_u seg_mapped seg_u seg_data = Ok P & value P 2 0 = 1.
Proof.
rewrite /project_u /= /project_cell seg_simplex /scatter /=.
have -> : np_where (active_dim seg_mapped) = [:: 2]%N.
  by rewrite /np_where /= !getE // !mxE.
rewrite /=; eexists; first by [].
rewrite /value /= /mx_get getE // mxE /= trmx1 mul1mx mxE /= mxE /=.
exact: seg_local_velocity.
Qed.

End Segment.

(* ====================================================================== *)
(*  The statements of the specification                                   *)
(* ====================================================================== *)

(* ---------------------------------------------------------------------- *)
(*  ndof                                                                  *)
(* ---------------------------------------------------------------------- *)

Section NdofClaims.

Variable R : realFieldType.

(** Claim C7.  ndof returns num_cells + num_faces on a grid and num_cells
    on a mortar grid; on anything else it raises ValueError, the
    InvalidEntityKind of the specification. *)
Theorem ndof_spec :
  (forall g : Grid R, ndof (IsGrid g) = Ok (num_cells g + num_faces g)%N) /\
  (forall g : MortarGrid,
     ndof (@IsMortarGrid R g) = Ok (mortar_num_cells g)) /\
  (forall e : entity R,
     (forall g, e <> IsGrid g) -> (forall g, e <> IsMortarGrid R g) ->
     ndof e = Raise ValueError).
Proof.
split=> //; split=> // e.
by case: e => // [g /(_ g)|g _ /(_ g)].
Qed.

End NdofClaims.

Lemma ndof_spec_witness :
  [/\ ndof (IsGrid seg_grid) = Ok 3,
      ndof (@IsMortarGrid rat (mkMortarGrid 4)) = Ok 4
    & ndof (@IsOther rat) = Raise ValueError].
Proof.
have [grid [mortar other]] := ndof_spec rat.
by split; [exact: grid | exact: mortar | exact: other].
Defined.

(* ---------------------------------------------------------------------- *)
(*  massHdiv                                                              *)
(* ---------------------------------------------------------------------- *)

Section MassClaims.

Variable R : realFieldType.


End MassClaims.



(* ---------------------------------------------------------------------- *)
(*  matrix                                                                *)
(* ---------------------------------------------------------------------- *)

Section MatrixClaims.

Variable R : realFieldType.
Variable rotate_perm : 'M[R]_3 -> 'M[R]_3 -> 'M[R]_3.
Variables (g : Grid R) (mg : MappedGrid g).

(** Claim C1, amended.  When matrix returns M on a grid of positive
    dimension, the bottom-left block of M is the negative transpose of the
    oriented cell-face incidence, and the row of a face in the top-right
    block is the transpose of the bottom-left block, with no change of sign,
    unless the face is a Neumann face that is not internal, whose row is
    zero. *)
Theorem matrix_coupling_blocks (data : Data g) bw h A w h' :
  dim g != 0%N ->
  matrix rotate_perm mg data bw h = (Ok (A, w), h') ->
  exists2 bc, get_bc (param data) = Some bc &
    forall f c, (f < num_faces g)%N -> (c < num_cells g)%N ->
      entry A (num_faces g + c) f = - mx_get (cell_faces g) f c /\
      entry A f (num_faces g + c) =
        if on_boundary (is_neu bc) bc f then 0
        else entry A (num_faces g + c) f.
Proof. exact: matrix_block_entries. Qed.

(** Claim C9.  On a grid of dimension 0, matrix with bc_weight set returns
    the diagonal matrix of order ndof(g) with diagonal 1, 0 and the weight 1,
    whatever the data dictionary holds; the heap is not touched. *)
Theorem matrix_zero_dim (data : Data g) h :
  dim g = 0%N ->
  ndof (IsGrid g) = Ok (num_cells g + num_faces g)%N /\
  matrix rotate_perm mg data true h =
    (Ok (mkSq (dia_matrix (num_cells g + num_faces g) [:: 1; 0]), Some 1), h).
Proof. by move=> dim0; rewrite /matrix dim0. Qed.

(** Claim C10.  matrix leaves every tensor object of the heap as it was; in
    particular the permeability tensor that the data dictionary refers to is
    the same after the call: the rotation and the deletion of the inactive
    dimensions are applied to a copy.  The grid, the dictionary and the
    boundary conditions are values that matrix only reads. *)
Theorem matrix_preserves_tensor (data : Data g) bw h :
  (get_tensor (param data) < size h)%N ->
  let h' := (matrix rotate_perm mg data bw h).2 in
  take (size h) h' = h /\
  deref h' (get_tensor (param data)) = deref h (get_tensor (param data)).
Proof.
move=> bound /=; have Eh := matrix_heap rotate_perm mg data bw h.
by split=> //; rewrite /deref -[in RHS]Eh nth_take.
Qed.

(** Claim C2.  A face that is flagged internal keeps its row of the matrix,
    the diagonal entry included, through the Neumann rows and through the
    Robin diagonal of matrix, whatever its other flags are, and its entry of
    the right-hand side stays zero. *)
Theorem internal_faces_untouched (bc : BoundaryCondition R (num_faces g))
    (f : 'I_(num_faces g)) :
  is_internal bc 0 f ->
  [/\ forall norm M j,
        neumann_rows bc norm M (lshift (num_cells g) f) j
        = M (lshift (num_cells g) f) j,
      forall M, exists2 M',
        robin_diagonal bc M = Ok M' &
        forall j, M' (lshift (num_cells g) f) j = M (lshift (num_cells g) f) j
    & forall (data : Data g) w r,
        dim g != 0%N -> get_bc (param data) = Some bc ->
        rhs data w = Ok r -> nth 0 r f = 0].
Proof.
move=> int_f; split=> [norm M j|M|data w r dimN0 Ebc].
- exact: neumann_rows_internal.
- exact: robin_diagonal_internal.
- by apply: rhs_internal_face dimN0 Ebc _; rewrite get_row.
Qed.

End MatrixClaims.

Lemma matrix_coupling_blocks_witness :
  exists A w h',
    [/\ dim seg_grid != 0%N,
        matrix rot_cell seg_mapped seg_data true seg_heap = (Ok (A, w), h')
      & exists2 bc, get_bc (param seg_data) = Some bc &
          forall f c, (f < 2)%N -> (c < 1)%N ->
            entry A (2 + c) f = - mx_get (cell_faces seg_grid) f c /\
            entry A f (2 + c) =
              if on_boundary (is_neu bc) bc f then 0 else entry A (2 + c) f].
Proof.
have [M [w [h' E]]] := seg_matrix_returns.
exists (mkSq M), (Some w), h'; split; [by [] | exact: E |].
exact: (matrix_coupling_blocks (isT : dim seg_grid != 0%N) E).
Defined.

(* Claim C1 as it stands fails on the segment with Dirichlet ends: with
   F = 2, the entry M[0, F] is 1 and the entry M[F, 0] is 1 as well, not
   -1. *)
Lemma matrix_coupling_not_negative_transpose :
  exists A w h',
    [/\ dim seg_grid != 0%N,
        matrix rot_cell seg_mapped seg_data true seg_heap = (Ok (A, w), h'),
        entry A 0 (num_faces seg_grid + 0) = 1,
        entry A (num_faces seg_grid + 0) 0 = 1
      & entry A 0 (num_faces seg_grid + 0)
        <> - entry A (num_faces seg_grid + 0) 0].
Proof.
have [M [w [h' E]]] := seg_matrix_returns.
exists (mkSq M), (Some w), h'.
have [//|bc [<-] /(_ 0 0 isT isT)[-> ->]] := matrix_block_entries _ E.
rewrite /on_boundary /= !getE // !mxE /= /mx_get getE // mxE /=.
by split.
Qed.

Lemma matrix_zero_dim_witness :
  dim point_grid = 0%N /\
  matrix rot_cell point_mapped point_data true seg_heap =
    (Ok (mkSq (dia_matrix 2 [:: 1; 0]), Some 1), seg_heap).
Proof.
split; first by [].
exact: (proj2 (matrix_zero_dim rot_cell point_mapped point_data seg_heap
                 (erefl : dim point_grid = 0%N))).
Defined.

Lemma matrix_preserves_tensor_witness :
  (get_tensor (param seg_data) < size seg_heap)%N /\
  deref (matrix rot_cell seg_mapped seg_data true seg_heap).2 0
  = deref seg_heap 0.
Proof.
split; first by [].
exact: (proj2 (matrix_preserves_tensor rot_cell seg_mapped true
                 (isT : (get_tensor (param seg_data) < size seg_heap)%N))).
Defined.

(* The first end point of the segment, internal and with every flag set. *)
Lemma internal_faces_untouched_witness :
  is_internal seg_bc_internal 0 0 /\
  forall w r,
    rhs (seg_data_with (Some seg_bc_internal) (Some seg_bc_val) [::]) w
    = Ok r ->
    nth 0 r 0 = 0.
Proof.
have int0 : is_internal seg_bc_internal 0 (0 : 'I_(num_faces seg_grid)).
  by rewrite mxE.
split=> [|w r]; first exact: int0.
have [_ _ rhs0] := internal_faces_untouched (g := seg_grid) int0.
exact: rhs0.
Defined.

(* ---------------------------------------------------------------------- *)
(*  rhs                                                                   *)
(* ---------------------------------------------------------------------- *)

Section RhsClaims.

Variable R : realFieldType.
Variable g : Grid R.

(** Claim C6.  On a grid of positive dimension with boundary conditions and
    boundary values, the entry of the vector that rhs returns at a face is,
    when the face is a Neumann face that is not internal,
    sign * weight * bc_val, whatever was added before; and otherwise the sum
    of -sign * bc_val if it is a Dirichlet face that is not internal and of
    -sign * bc_val / robin_weight if it is a Robin face that is not
    internal.  rhs returns when every face bounds a cell. *)
Theorem rhs_boundary_values (data : Data g) (w : R)
    (bc : BoundaryCondition R (num_faces g)) (bc_val : 'rV[R]_(num_faces g)) :
  dim g != 0%N ->
  get_bc (param data) = Some bc -> get_bc_val (param data) = Some bc_val ->
  (faces_covered g -> exists r, rhs data w = Ok r) /\
  forall r, rhs data w = Ok r ->
    forall f,
      let sign := nth 0 (face_sign g) f in
      let dirichlet := if on_boundary (is_dir bc) bc f
                       then - sign * mx_get bc_val 0 f else 0 in
      let robin := if on_boundary (is_rob bc) bc f
                   then - sign * mx_get bc_val 0 f
                        / mx_get (robin_weight bc) 0 f
                   else 0 in
      nth 0 r f = if on_boundary (is_neu bc) bc f
                  then sign * w * mx_get bc_val 0 f
                  else dirichlet + robin.
Proof.
move=> dimN0 Ebc Eval; split=> [cov|r Er].
  by apply: rhs_returns => //; rewrite ?Ebc ?Eval.
exact: rhs_values_of_ok dimN0 Ebc Eval Er.
Qed.

(** Claim C8.  On a grid of positive dimension rhs raises AssertionError,
    the InconsistentBoundaryData of the specification, exactly when one of
    get_bc and get_bc_val is None and the other is not; when both are None
    it returns the zero vector of length ndof(g). *)
Theorem rhs_inconsistent_boundary_data (data : Data g) (w : R) :
  dim g != 0%N ->
  (rhs data w = Raise AssertionError <->
     isSome (get_bc (param data)) != isSome (get_bc_val (param data))) /\
  (get_bc (param data) = None -> get_bc_val (param data) = None ->
     ndof (IsGrid g) = Ok (num_cells g + num_faces g)%N /\
     rhs data w = Ok (nseq (num_cells g + num_faces g) 0)).
Proof. exact: rhs_assert_spec. Qed.

End RhsClaims.

(* The segment with the boundary values 1 and 2 on its Dirichlet ends. *)
Lemma rhs_boundary_values_witness :
  dim seg_grid != 0%N /\
  exists2 r, rhs seg_data 1 = Ok r & nth 0 r 0 = 1 /\ nth 0 r 1 = - 2%:R.
Proof.
split; first by [].
have [returns values] :=
  rhs_boundary_values 1 (isT : dim seg_grid != 0%N)
    (erefl : get_bc (param seg_data) = Some seg_bc)
    (erefl : get_bc_val (param seg_data) = Some seg_bc_val).
have [r Er] := returns seg_faces_covered.
exists r; first exact: Er.
rewrite (values r Er 0%N) (values r Er 1%N) seg_face_sign /on_boundary /=.
by rewrite /mx_get !getE // !mxE /=; split; apply/eqP.
Defined.

Lemma rhs_inconsistent_boundary_data_witness :
  [/\ dim seg_grid != 0%N,
      rhs (seg_data_with (Some seg_bc) None [::]) 1 = Raise AssertionError
    & rhs (seg_data_with None None [:: 5%:R]) 1 = Ok [:: 0; 0; 0]].
Proof.
have nz : dim seg_grid != 0%N by [].
split; first exact: nz.
  exact: ((proj1 (rhs_inconsistent_boundary_data
                    (seg_data_with (Some seg_bc) None [::]) 1 nz)).2 isT).
exact: (proj2 ((proj2 (rhs_inconsistent_boundary_data
                         (seg_data_with None None [:: 5%:R]) 1 nz))
                 erefl erefl)).
Defined.

(** Claim C4.  The segment has the source 5 in its cell, and rhs returns the
    vector 1, -2, 0: the entry of the cell is 0, and the vector is the same
    for every source.  On the grid of dimension 0 the source is in the
    vector. *)
Theorem rhs_ignores_source :
  [/\ get_source (param seg_data) = [:: 5%:R],
      rhs seg_data 1 = Ok [:: 1; - 2%:R; 0],
      forall f, rhs (seg_data_with (Some seg_bc) (Some seg_bc_val) f) 1
                = rhs seg_data 1
    & rhs point_data 1 = Ok [:: 0; 5%:R]].
Proof.
split=> //.
rewrite /rhs /= seg_face_sign /rhs_dirichlet /rhs_robin /rhs_neumann.
rewrite /np_any /np_where /= !getE // !mxE /= /take_idx /=.
rewrite /iadd /assign /= /mx_get !getE // !mxE /=.
by congr (Ok [:: _; _; _]); apply/eqP.
Qed.

(* ---------------------------------------------------------------------- *)
(*  project_u                                                             *)
(* ---------------------------------------------------------------------- *)

Section ProjectClaims.

Variable R : realFieldType.
Variables (g : Grid R) (mg : MappedGrid g).

(** Claim C5, amended.  Every column of the array that project_u returns is
    the image under the transpose of the rotation R of a vector that is zero
    in the rows the mask of the active dimensions does not select; on a grid
    of dimension 0 the array is zero.  project_u returns when the cells are
    simplices and the mask selects as many rows as the grid has dimensions
    (a local velocity with one entry is broadcast to any selection). *)
Theorem project_u_inactive_rows (u : 'rV[R]_(num_faces g)) (data : Data g) :
  [/\ (size (np_where (active_dim mg)) == dim g) || (dim g == 1%N) ->
      all (is_simplex g) (iota 0 (num_cells g)) ->
      exists P, project_u mg u data = Ok P,
      dim g = 0%N -> project_u mg u data = Ok (mkDense3 (0 : 'M[R]_(3, 1)))
    & forall P, project_u mg u data = Ok P ->
        exists2 V : 'M[R]_(3, ncols P),
          values P = (rotation mg)^T *m V &
          forall r c, ~~ active_dim mg 0 r -> V r c = 0].
Proof.
split=> [fits simplices|dim0|P]; first exact: project_u_returns.
  by rewrite /project_u dim0.
exact: project_u_columns.
Qed.

End ProjectClaims.

Lemma project_u_inactive_rows_witness :
  exists P,
    project_u seg_mapped seg_u seg_data = Ok P /\
    exists2 V : 'M[rat]_(3, ncols P),
      values P = (rotation seg_mapped)^T *m V &
      forall r c, ~~ active_dim seg_mapped 0 r -> V r c = 0.
Proof.
have [returns _ columns] :=
  project_u_inactive_rows seg_mapped seg_u seg_data.
have fits : (size (np_where (active_dim seg_mapped)) == dim seg_grid)
            || (dim seg_grid == 1%N) by rewrite orbT.
have simplices : all (is_simplex seg_grid) (iota 0 (num_cells seg_grid)).
  by rewrite /= seg_simplex.
have [P E] := returns fits simplices.
by exists P; split; [exact: E | exact: columns E].
Defined.

(* Claim C5 as it stands fails on the segment, a grid of dimension 1 that
   lies on the third axis: the row 2 of the projected velocity is 1. *)
Lemma project_u_rows_not_zero :
  (dim seg_grid < 3)%N /\
  exists2 P, project_u seg_mapped seg_u seg_data = Ok P
           & (dim seg_grid <= 2)%N /\ value P 2 0 <> 0.
Proof.
split=> //; have [P E EP] := seg_project_u; exists P => //.
by rewrite EP.
Qed.

(* ====================================================================== *)
(*  Further properties of the discretisation                              *)
(* ====================================================================== *)

(* ---------------------------------------------------------------------- *)
(*  The segment under other boundary conditions                           *)
(* ---------------------------------------------------------------------- *)

Section SegmentBoundary.

Lemma seg_matrix_returns_with (bc : BoundaryCondition rat 2) bc_val f bw :
  exists (M : 'M[rat]_(2 + 1)) w h',
    matrix rot_cell seg_mapped (seg_data_with (Some bc) bc_val f) bw seg_heap
    = (Ok (mkSq M, w), h').
Proof.
rewrite /matrix /= /bindH /tensor_copy /tensor_rotate /=.
rewrite /tensor_delete /ret /=.
set k := (X in assemble _ X).
have shape_k : perm_shape k = 1%N.
  by rewrite /k /= /kept /np_where /= !getE // !mxE.
have k00 : perm k 0 0 0 = 1.
  rewrite /k /= /kept /np_where /= !getE // !mxE /=.
  by rewrite /rot_cell mul1mx trmx1 mulmx1 /mx_get getE // mxE.
have [A EA] := seg_local_matrix shape_k k00.
rewrite /assemble /= EA /=.
set M0 := neumann_rows _ _ _.
have [M EM _] := robin_diagonalE (g := seg_grid) bc M0.
by rewrite EM /=; do 3!eexists.
Qed.

Lemma seg_matrix_rhs_returns_with (bc : BoundaryCondition rat 2)
    (bc_val : 'rV[rat]_2) f :
  exists A r h',
    matrix_rhs rot_cell seg_mapped (seg_data_with (Some bc) (Some bc_val) f)
      seg_heap
    = (Ok (A, r), h').
Proof.
set data := seg_data_with _ _ _.
have [M [w [h' E]]] := seg_matrix_returns_with bc (Some bc_val) f true.
have [r Er] :=
  rhs_returns (data := data) (odflt 1 w) (isT : dim seg_grid != 0%N) isT isT
    seg_faces_covered.
exists (mkSq M), r, h'.
by rewrite /matrix_rhs /bindH E /pure_result /= Er.
Qed.

End SegmentBoundary.

(* ---------------------------------------------------------------------- *)
(*  The loops over the cells                                              *)
(* ---------------------------------------------------------------------- *)

Section CellLoops.

Lemma mapM_ok_in (A : eqType) (B : Type) (f : A -> result B) (s : seq A)
    (ys : seq B) (x : A) :
  mapM f s = Ok ys -> x \in s -> exists y, f x = Ok y.
Proof.
elim: s ys => [|a s IH] ys //=.
case Ea: (f a) => [y|] //=; case Es: (mapM f s) => [ys'|] //= _.
by rewrite in_cons => /orP[/eqP->|/(IH _ Es)//]; exists y.
Qed.

Lemma mapM_ok_from (A : Type) (B : eqType) (f : A -> result B) (s : seq A)
    (ys : seq B) (y : B) :
  mapM f s = Ok ys -> y \in ys -> exists x, f x = Ok y.
Proof.
elim: s ys => [|a s IH] ys /=; first by case=> <-.
case Ea: (f a) => [y'|] //=; case Es: (mapM f s) => [ys'|] //= [<-].
by rewrite in_cons => /orP[/eqP->|/(IH _ Es)//]; exists a.
Qed.

End CellLoops.

(* ---------------------------------------------------------------------- *)
(*  extract_u and extract_p                                               *)
(* ---------------------------------------------------------------------- *)

Section ExtractFacts.

Variable R : realFieldType.
Variable g : Grid R.

(** Property X1.  extract_u and extract_p split a vector of unknowns at
    num_faces: joined again they give the vector back, and on the
    concatenation of a flux vector with one entry per face and a pressure
    vector they return the two parts. *)
Theorem extract_roundtrip (u p up : seq R) :
  size u = num_faces g ->
  [/\ extract_u g (u ++ p) = u, extract_p g (u ++ p) = p
    & extract_u g up ++ extract_p g up = up].
Proof.
rewrite /extract_u /extract_p => <-.
by rewrite take_size_cat // drop_size_cat // cat_take_drop.
Qed.

End ExtractFacts.

Lemma extract_roundtrip_witness :
  size [:: 1; 2%:R : rat] = num_faces seg_grid /\
  [/\ extract_u seg_grid ([:: 1; 2%:R] ++ [:: 3%:R]) = [:: 1; 2%:R],
      extract_p seg_grid ([:: 1; 2%:R] ++ [:: 3%:R]) = [:: 3%:R]
    & extract_u seg_grid [:: 4%:R] ++ extract_p seg_grid [:: 4%:R]
      = [:: 4%:R]].
Proof.
split; first by [].
exact: (@extract_roundtrip rat seg_grid [:: 1; 2%:R] [:: 3%:R] [:: 4%:R]
          (erefl : size [:: 1; 2%:R : rat] = num_faces seg_grid)).
Defined.

(* ---------------------------------------------------------------------- *)
(*  The length of the vector of rhs and the signs of the faces            *)
(* ---------------------------------------------------------------------- *)

Section RhsLength.

Variable R : realFieldType.
Variable g : Grid R.

Implicit Types (bc : BoundaryCondition R (num_faces g))
  (bc_val : 'rV[R]_(num_faces g)).

Lemma size_assign (idx : seq nat) (vals v : seq R) :
  all (fun i => (i < size v)%N) idx -> size (assign v idx vals) = size v.
Proof.
rewrite /assign; elim: idx vals v => [|k idx IH] [|x vals] v //=.
case/andP=> lt_k all_lt; move/maxn_idPr: (lt_k) => Emax.
by rewrite IH size_set_nth Emax.
Qed.

Lemma size_iadd (idx : seq nat) (vals v : seq R) :
  all (fun i => (i < size v)%N) idx -> size (iadd v idx vals) = size v.
Proof. exact: size_assign. Qed.

Lemma rhs_dirichlet_size bc bc_val sign r r' :
  (num_faces g <= size r)%N ->
  rhs_dirichlet bc bc_val sign r = Ok r' -> size r' = size r.
Proof.
move=> le_F; rewrite /rhs_dirichlet; case: ifP => [_|_ [<-] //].
by case: (take_idx _ _) => [s|] //= [<-]; rewrite size_iadd ?where_in_range.
Qed.

Lemma rhs_robin_size bc bc_val sign r r' :
  (num_faces g <= size r)%N ->
  rhs_robin bc bc_val sign r = Ok r' -> size r' = size r.
Proof.
move=> le_F; rewrite /rhs_robin; case: ifP => [_|_ [<-] //].
by case: (take_idx _ _) => [s|] //= [<-]; rewrite size_iadd ?where_in_range.
Qed.

Lemma rhs_neumann_size bc bc_val w sign r r' :
  (num_faces g <= size r)%N ->
  rhs_neumann bc bc_val w sign r = Ok r' -> size r' = size r.
Proof.
move=> le_F; rewrite /rhs_neumann; case: ifP => [_|_ [<-] //].
by case: (take_idx _ _) => [s|] //= [<-]; rewrite size_assign ?where_in_range.
Qed.

Lemma rhs_size (data : Data g) (w : R) r :
  rhs data w = Ok r ->
  size r = if dim g == 0%N then (size (get_source (param data))).+1
           else (num_cells g + num_faces g)%N.
Proof.
rewrite /rhs; case: ifP => [_ [<-] //|_].
case: ifP => // _ /=.
case: (get_bc _) => [bc|]; last by case=> <-; rewrite size_nseq.
case: (get_bc_val _) => [bc_val|] //.
have le0 :
  (num_faces g <= size (nseq (num_cells g + num_faces g) (0%R : R)))%N.
  by rewrite size_nseq leq_addl.
case E1: (rhs_dirichlet _ _ _ _) => [r1|] //=.
have S1 := rhs_dirichlet_size le0 E1.
case E2: (rhs_robin _ _ _ _) => [r2|] //=.
have le1 : (num_faces g <= size r1)%N by rewrite S1.
have S2 := rhs_robin_size le1 E2.
case E3: (rhs_neumann _ _ _ _ _) => [r3|] //= [<-].
have le2 : (num_faces g <= size r2)%N by rewrite S2.
by rewrite (rhs_neumann_size le2 E3) S2 S1 size_nseq.
Qed.

(* the entries of the cells are never written *)
Lemma rhs_cell_block (data : Data g) (w : R) r (i : nat) :
  dim g != 0%N -> rhs data w = Ok r -> (num_faces g <= i)%N -> nth 0 r i = 0.
Proof.
move=> dimN0 Er le_i.
case Ebc: (get_bc (param data)) => [bc|]; last first.
  move: Er; rewrite /rhs (negPf dimN0) Ebc.
  by case: (get_bc_val _) => //= -[<-]; rewrite nth_nseq if_same.
case Eval: (get_bc_val (param data)) => [bc_val|]; last first.
  by move: Er; rewrite /rhs (negPf dimN0) Ebc Eval.
rewrite (rhs_values_of_ok dimN0 Ebc Eval Er) /on_boundary.
by rewrite !(get_out false _ 0 le_i) /= addr0.
Qed.

Lemma rhs_shape (data : Data g) (w : R) r :
  dim g != 0%N -> rhs data w = Ok r ->
  size r = (num_cells g + num_faces g)%N /\
  extract_p g r = nseq (num_cells g) 0.
Proof.
move=> dimN0 Er; have := rhs_size Er; rewrite (negPf dimN0) => Esz.
split=> //; apply: (@eq_from_nth _ 0).
  by rewrite /extract_p size_drop Esz size_nseq addnK.
move=> i _; rewrite /extract_p nth_drop nth_nseq if_same.
by apply: rhs_cell_block dimN0 Er _; rewrite leq_addr.
Qed.

(** Property X2.  On a grid of positive dimension the vector that rhs
    returns has ndof(g) = num_cells + num_faces entries, and its pressure
    part, the one extract_p returns, is the zero vector with one entry per
    cell: rhs writes the entries of the faces only. *)
Theorem rhs_length_pressure (data : Data g) (w : R) r :
  dim g != 0%N -> rhs data w = Ok r ->
  [/\ ndof (IsGrid g) = Ok (size r),
      size r = (num_cells g + num_faces g)%N
    & extract_p g r = nseq (num_cells g) 0].
Proof.
by move=> dimN0 /(rhs_shape dimN0)[Esz Ep]; split=> //=; rewrite Esz.
Qed.

Lemma mem_sps_find m n (A : 'M[R]_(m, n)) (e : nat * nat * R) :
  e \in sps_find A ->
  [/\ (e.1.1 < m)%N, (e.1.2 < n)%N, e.2 = mx_get A e.1.1 e.1.2 & e.2 != 0].
Proof.
case/flattenP=> s /mapP[j]; rewrite mem_iota /= add0n => lt_j ->.
case/mapP=> i; rewrite mem_filter mem_iota /= add0n => /andP[nz lt_i] -> /=.
by split.
Qed.

(* np.unique returns every face, in increasing order *)
Lemma sorted_undup_rows :
  faces_covered g ->
  sort leq (undup [seq t.1.1 | t <- sps_find (cell_faces g)])
  = iota 0 (num_faces g).
Proof.
move=> /allP cov; apply: (@sorted_eq _ leq).
- exact: leq_trans.
- exact: anti_leq.
- exact: (sort_sorted leq_total).
- exact: iota_sorted.
rewrite perm_sort; apply: uniq_perm; rewrite ?undup_uniq ?iota_uniq //.
move=> f; rewrite mem_undup mem_find_rows mem_iota /= add0n.
by case lt_f: (f < _)%N => //=; apply: cov; rewrite mem_iota.
Qed.

(** Property X3.  When every face bounds a cell, the sign that rhs uses
    for the face f is a non-zero entry of the row f of g.cell_faces: the
    orientation of f with respect to one of the cells it bounds, which for
    a boundary face is its only cell. *)
Theorem face_sign_entry (f : nat) :
  faces_covered g -> (f < num_faces g)%N ->
  exists c, [/\ (c < num_cells g)%N, mx_get (cell_faces g) f c != 0
              & nth 0 (face_sign g) f = mx_get (cell_faces g) f c].
Proof.
move=> cov lt_f; rewrite /face_sign /np_unique_index sorted_undup_rows //.
set entries := sps_find _; set rows := [seq t.1.1 | t <- entries].
have f_in : f \in rows.
  rewrite mem_find_rows lt_f /=.
  by move/allP: cov; apply; rewrite mem_iota.
rewrite (nth_map 0%N) ?size_map ?size_iota //.
rewrite (nth_map 0%N) ?size_iota // nth_iota // add0n.
have lt_ix : (index f rows < size entries)%N.
  by rewrite -(size_map (fun t => t.1.1)) index_mem.
rewrite (nth_map (0%N, 0%N, 0)) //.
set e := nth _ entries _.
have Ef : e.1.1 = f.
  by rewrite /e -(nth_map _ 0%N (fun t => t.1.1)) // nth_index.
have [_ lt_c Ee nz] := mem_sps_find (mem_nth (0%N, 0%N, 0) lt_ix).
by exists e.1.2; rewrite -/e -Ef -Ee; split.
Qed.

End RhsLength.

Lemma rhs_length_pressure_witness :
  exists r,
    [/\ dim seg_grid != 0%N, rhs seg_data 1 = Ok r
      & [/\ ndof (IsGrid seg_grid) = Ok (size r), size r = 3
          & extract_p seg_grid r = [:: 0]]].
Proof.
have [r Er] :=
  rhs_returns (data := seg_data) 1 (isT : dim seg_grid != 0%N) isT isT
    seg_faces_covered.
exists r; split; [by [] | exact: Er |].
exact: (rhs_length_pressure (isT : dim seg_grid != 0%N) Er).
Defined.

Lemma face_sign_entry_witness :
  [/\ faces_covered seg_grid, (0 < num_faces seg_grid)%N
    & exists c, [/\ (c < num_cells seg_grid)%N,
                    mx_get (cell_faces seg_grid) 0 c != 0
                  & nth 0 (face_sign seg_grid) 0
                    = mx_get (cell_faces seg_grid) 0 c]].
Proof.
split; [exact: seg_faces_covered | by [] |].
exact: (face_sign_entry seg_faces_covered
          (isT : (0 < num_faces seg_grid)%N)).
Defined.

(* ---------------------------------------------------------------------- *)
(*  What matrix and matrix_rhs return                                     *)
(* ---------------------------------------------------------------------- *)

Section MatrixResults.

Variable R : realFieldType.
Variable rotate_perm : 'M[R]_3 -> 'M[R]_3 -> 'M[R]_3.
Variables (g : Grid R) (mg : MappedGrid g).

Implicit Types (bc : BoundaryCondition R (num_faces g))
  (M : 'M[R]_(num_faces g + num_cells g)).

(* the stages of assemble, with the local matrices and the weight *)
Lemma assemble_parts (k : Tensor R) obc a bw A w :
  assemble mg k obc a bw = Ok (A, w) ->
  exists cells bc M,
    let mass := coo_matrix (num_faces g) cells in
    let norm := if bw then norm_inf mass else 1 in
    [/\ mapM (local_matrix mg k a (HB_matrix R (dim g)))
          (iota 0 (num_cells g)) = Ok cells,
        obc = Some bc,
        robin_diagonal bc
          (neumann_rows bc norm
             (block_mx mass (- (cell_faces g)^T)^T (- (cell_faces g)^T) 0))
        = Ok M,
        A = mkSq M
      & w = if bw then Some norm else None].
Proof.
rewrite /assemble; case Ec: (mapM _ _) => [cells|] //=.
case: ifP => // _; case: obc => [bc|] //.
case E: (robin_diagonal _ _) => [M|] //= [<- <-].
by exists cells, bc, M; split.
Qed.

Lemma final_entries bc norm M0 M :
  robin_diagonal bc (neumann_rows bc norm M0) = Ok M ->
  forall i j,
    M i j =
    (if on_boundary (is_neu bc) bc i then (if i == j then norm else 0)
     else M0 i j)
    + (if (i == j) && on_boundary (is_rob bc) bc i
       then 1 / (mx_get (robin_weight bc) 0 i * mx_get (face_areas g) 0 i)
       else 0).
Proof.
move=> EM i j; have [M' ] := robin_diagonalE bc (neumann_rows bc norm M0).
by rewrite EM => -[<-] ->; rewrite neumann_rowsE.
Qed.

Lemma on_boundary_lt bc (flag : 'rV[bool]_(num_faces g)) (f : nat) :
  on_boundary flag bc f -> (f < num_faces g)%N.
Proof.
rewrite /on_boundary; case: (ltnP f (num_faces g)) => // le_f.
by rewrite get_out.
Qed.

Lemma neumann_row_entries bc norm M0 M (f j : nat) :
  robin_diagonal bc (neumann_rows bc norm M0) = Ok M ->
  on_boundary (is_neu bc) bc f ->
  entry (mkSq M) f j =
  if j == f
  then norm + (if on_boundary (is_rob bc) bc f
               then 1 / (mx_get (robin_weight bc) 0 f
                         * mx_get (face_areas g) 0 f)
               else 0)
  else 0.
Proof.
move=> EM neu_f; have lt_f := on_boundary_lt neu_f.
have lt_f' : (f < num_faces g + num_cells g)%N := ltn_addr _ lt_f.
rewrite /entry /= /mx_get /get insubT.
case: insubP => [j' _ Ej|]; last first.
  rewrite -leqNgt => le_j; case: eqP => // Ejf.
  by move: le_j; rewrite Ejf leqNgt lt_f'.
rewrite (final_entries EM) /= neu_f -Ej -val_eqE /= [f == _]eq_sym.
by case: eqP => //= _; rewrite addr0.
Qed.

Lemma matrix_order (data : Data g) bw h A w h' :
  matrix rotate_perm mg data bw h = (Ok (A, w), h') ->
  sq_order A = (num_cells g + num_faces g)%N.
Proof.
case dim0: (dim g == 0%N).
  by rewrite /matrix dim0 /pure_result /= => -[<- _ _].
move/negbT in dim0 => /(matrix_inv dim0)[k].
by move=> /assemble_parts[cells [bc [M [_ _ _ -> _]]]] /=; rewrite addnC.
Qed.

Lemma matrix_weight (data : Data g) bw h A w h' :
  matrix rotate_perm mg data bw h = (Ok (A, w), h') -> isSome w = bw.
Proof.
case dim0: (dim g == 0%N).
  by rewrite /matrix dim0 /pure_result /= => -[_ <- _]; case: bw.
move/negbT in dim0 => /(matrix_inv dim0)[k].
by move=> /assemble_parts[cells [bc [M [_ _ _ _ ->]]]] /=; case: bw.
Qed.

Lemma matrix_rhs_inv (data : Data g) h A r h' :
  matrix_rhs rotate_perm mg data h = (Ok (A, r), h') ->
  exists2 w, matrix rotate_perm mg data true h = (Ok (A, w), h')
           & rhs data (odflt 1 w) = Ok r.
Proof.
rewrite /matrix_rhs /bindH.
case: (matrix _ _ _ _ _) => [[[A' w]|e] h''] //=.
rewrite /pure_result; case Er: (rhs _ _) => [r'|] //= [<- <- <-].
by exists w.
Qed.

(* the tensor of the cell loop is the rotated copy, the last object of the
   heap, or the tensor of the data when matrix does not rotate *)
Lemma matrix_tensor (data : Data g) bw h A w h' :
  dim g != 0%N ->
  matrix rotate_perm mg data bw h = (Ok (A, w), h') ->
  let k := if ~~ odflt false (is_tangential data) && (dim g < 3)%N
           then size h else get_tensor (param data) in
  assemble mg (deref h' k) (get_bc (param data)) (get_aperture (param data))
    bw = Ok (A, w).
Proof.
move=> /negPf dimN0; rewrite /matrix dimN0 /bindH.
case: ifP => _; last by rewrite /ret => -[E <-].
rewrite /tensor_copy /tensor_rotate /=; case: ifP => _ //=.
by rewrite /ret => -[E <-].
Qed.

Lemma assemble_faces_pos (k : Tensor R) obc a bw A w :
  assemble mg k obc a bw = Ok (A, w) -> (0 < num_faces g)%N.
Proof.
rewrite /assemble; case: (mapM _ _) => [cells|] //=.
by case: ifP => // /andP[].
Qed.

(* the infinity norm is the largest of the absolute row sums *)
Lemma norm_inf_rows n (B : 'M[R]_n) :
  (forall i, \sum_j `|B i j| <= norm_inf B) /\
  ((0 < n)%N -> exists i, norm_inf B = \sum_j `|B i j|).
Proof.
split=> [i|]; first exact: (le_bigmax 0 (fun i => \sum_j `|B i j|)).
case: n B => // n B _.
have ge0 (i : 'I_n.+1) : xpredT i -> 0 <= \sum_j `|B i j|.
  by move=> _; apply: sumr_ge0.
have [i _ Ei] := @eq_bigmax _ _ _ 0 ord0 xpredT _ isT ge0.
by exists i.
Qed.

Lemma get_lshift_lshift m1 m2 n1 n2 (B : 'M[R]_(m1 + m2, n1 + n2))
    (i : 'I_m1) (j : 'I_n1) :
  mx_get B i j = B (lshift m2 i) (lshift n2 j).
Proof. exact: (mx_get_ord B (lshift m2 i) (lshift n2 j)). Qed.

(** Property X4.  The system that matrix_rhs returns on a grid of positive
    dimension is square of order ndof(g), the right-hand side has as many
    entries as the matrix has rows, extract_u takes num_faces of them and
    extract_p the rest, which are zero. *)
Theorem matrix_rhs_shapes (data : Data g) h A r h' :
  dim g != 0%N ->
  matrix_rhs rotate_perm mg data h = (Ok (A, r), h') ->
  [/\ ndof (IsGrid g) = Ok (sq_order A), size r = sq_order A,
      size (extract_u g r) = num_faces g
    & extract_p g r = nseq (num_cells g) 0].
Proof.
move=> dimN0 /matrix_rhs_inv[w /matrix_order EA Er].
have [Esz Ep] := rhs_shape dimN0 Er.
split=> //=; rewrite ?EA ?Esz //.
by rewrite /extract_u size_take_min Esz; apply/minn_idPl/leq_addl.
Qed.

(** Property X5.  In the system that matrix_rhs returns on a grid of
    positive dimension the boundary conditions and the boundary values are
    both given, and the weight is the one matrix returns: the infinity norm
    of the mass matrix that the cell loop assembles from the tensor k it
    works with (the rotated copy, or the tensor of the data when matrix
    does not rotate), that is the largest absolute row sum of that matrix,
    which is the face block of the system outside the Neumann rows, up to
    the Robin diagonal.  The row of a
    Neumann face that is not internal holds one entry, on the diagonal: the
    weight, plus the Robin term if the face also carries the Robin flag;
    and the right-hand side of that row is sign * weight * bc_val with the
    same weight. *)
Theorem matrix_rhs_neumann (data : Data g) h A r h' :
  dim g != 0%N ->
  matrix_rhs rotate_perm mg data h = (Ok (A, r), h') ->
  exists bc bc_val cells weight,
    let k :=
      deref h' (if ~~ odflt false (is_tangential data) && (dim g < 3)%N
                then size h else get_tensor (param data)) in
    let mass := coo_matrix (num_faces g) cells in
    let robin f :=
      if on_boundary (is_rob bc) bc f
      then 1 / (mx_get (robin_weight bc) 0 f * mx_get (face_areas g) 0 f)
      else 0 in
    [/\ get_bc (param data) = Some bc /\
        get_bc_val (param data) = Some bc_val,
        mapM (local_matrix mg k (get_aperture (param data))
                (HB_matrix R (dim g))) (iota 0 (num_cells g)) = Ok cells /\
        matrix rotate_perm mg data true h = (Ok (A, Some weight), h'),
        [/\ weight = norm_inf mass,
            forall i, \sum_j `|mass i j| <= weight
          & exists i, weight = \sum_j `|mass i j|],
        forall i j : 'I_(num_faces g),
          ~~ on_boundary (is_neu bc) bc i ->
          entry A i j = mass i j + (if i == j then robin i else 0)
      & forall f, on_boundary (is_neu bc) bc f ->
          (forall j,
             entry A f j = if j == f then weight + robin f else 0) /\
          nth 0 r f = nth 0 (face_sign g) f * weight * mx_get bc_val 0 f].
Proof.
move=> dimN0 /matrix_rhs_inv[w Em Er].
have Ea := matrix_tensor dimN0 Em.
have Fpos := assemble_faces_pos Ea.
have [cells [bc [M [Ecells Ebc EM EA Ew]]]] := assemble_parts Ea.
have [bc_val Eval] : exists v, get_bc_val (param data) = Some v.
  move: Er; rewrite /rhs (negPf dimN0) Ebc.
  by case: (get_bc_val _) => [v|] //; exists v.
set mass := coo_matrix (num_faces g) cells in EM Ew *.
have [le_rows /(_ Fpos) max_row] := norm_inf_rows mass.
exists bc, bc_val, cells, (norm_inf mass) => /=.
split=> //; first by rewrite Em Ew.
  move=> i j /negPf Ni; rewrite EA /entry /= get_lshift_lshift.
  rewrite (final_entries EM) /= Ni block_mxEul -!val_eqE /=.
  by case: (_ == _ :> nat).
move=> f neu_f; rewrite EA; split=> [j|].
  exact: neumann_row_entries EM neu_f.
move: Er; rewrite Ew /= => Er.
by rewrite (rhs_values_of_ok dimN0 Ebc Eval Er) neu_f.
Qed.

(** Property X6.  matrix returns a weight exactly when bc_weight is set.
    The row of a Neumann face that is not internal is zero off the
    diagonal, and its diagonal entry is the weight, or 1 when no weight is
    asked for, plus the Robin term if the face also carries the Robin
    flag. *)
Theorem matrix_neumann_rows (data : Data g) bw h A w h' :
  dim g != 0%N ->
  matrix rotate_perm mg data bw h = (Ok (A, w), h') ->
  isSome w = bw /\
  exists2 bc, get_bc (param data) = Some bc &
    forall f j, on_boundary (is_neu bc) bc f ->
      entry A f j =
      if j == f
      then odflt 1 w + (if on_boundary (is_rob bc) bc f
                        then 1 / (mx_get (robin_weight bc) 0 f
                                  * mx_get (face_areas g) 0 f)
                        else 0)
      else 0.
Proof.
move=> dimN0 EA; split; first exact: matrix_weight EA.
have [k] := matrix_inv dimN0 EA.
move=> /assemble_parts[cells [bc [M [_ Ebc EM -> ->]]]]; exists bc => //.
move=> f j neu_f; rewrite (neumann_row_entries j EM neu_f).
by case: bw {EA EM}.
Qed.

(** Property X7.  The block of the cell pressures is empty: the matrix that
    matrix returns has no entry that couples two cells. *)
Theorem matrix_pressure_block (data : Data g) bw h A w h' (c c' : nat) :
  dim g != 0%N ->
  matrix rotate_perm mg data bw h = (Ok (A, w), h') ->
  entry A (num_faces g + c) (num_faces g + c') = 0.
Proof.
move=> dimN0 /(matrix_inv dimN0)[k].
move=> /assemble_parts[cells [bc [M [_ _ EM -> _]]]].
rewrite /entry /= /mx_get /get.
case: insubP => [i _ Ei|] //; case: insubP => [j _ Ej|] //.
rewrite (final_entries EM).
have ltc : (c < num_cells g)%N.
  by have := ltn_ord i; rewrite Ei ltn_add2l.
have ltc' : (c' < num_cells g)%N.
  by have := ltn_ord j; rewrite Ej ltn_add2l.
have -> : i = rshift (num_faces g) (Ordinal ltc) by apply: val_inj.
have -> : j = rshift (num_faces g) (Ordinal ltc') by apply: val_inj.
rewrite /on_boundary !get_out ?leq_addr //= andbF block_mxEdr mxE addr0.
by [].
Qed.

(** Property X8.  matrix allocates one tensor object, the copy it rotates,
    when the grid has dimension 1 or 2 and the data are not tangential;
    in every other case the heap after the call is the heap before it. *)
Theorem matrix_allocation (data : Data g) bw (h : heap R) :
  let h' := (matrix rotate_perm mg data bw h).2 in
  if (dim g != 0%N) && ~~ odflt false (is_tangential data) && (dim g < 3)%N
  then size h' = (size h).+1
  else h' = h.
Proof.
rewrite /matrix; case: (dim g == 0%N) => //=.
rewrite /bindH; case: (_ && _) => //=.
rewrite /tensor_copy /tensor_rotate /=.
case: (perm_shape _ == 3) => /=; last by rewrite size_rcons.
rewrite /tensor_delete /ret /= !size_set_nth !size_rcons.
by rewrite !maxnn.
Qed.

End MatrixResults.

Lemma matrix_rhs_shapes_witness :
  exists A r h',
    [/\ dim seg_grid != 0%N,
        matrix_rhs rot_cell seg_mapped seg_data seg_heap = (Ok (A, r), h')
      & [/\ ndof (IsGrid seg_grid) = Ok (sq_order A), size r = sq_order A,
            size (extract_u seg_grid r) = 2
          & extract_p seg_grid r = [:: 0]]].
Proof.
have [A [r [h' E]]] := seg_matrix_rhs_returns_with seg_bc seg_bc_val [:: 5%:R].
exists A, r, h'; split; [by [] | exact: E |].
exact: (matrix_rhs_shapes (isT : dim seg_grid != 0%N) E).
Defined.

(* The second end point of the segment is a Neumann face that is not
   internal. *)
Lemma matrix_rhs_neumann_witness :
  exists A r h',
    let data :=
      seg_data_with (Some seg_bc_internal) (Some seg_bc_val) [::] in
    [/\ dim seg_grid != 0%N,
        matrix_rhs rot_cell seg_mapped data seg_heap = (Ok (A, r), h')
      & exists weight,
          [/\ matrix rot_cell seg_mapped data true seg_heap
              = (Ok (A, Some weight), h'),
              forall j, entry A 1 j = if j == 1%N then weight + 1 else 0
            & nth 0 r 1 = weight * 2%:R]].
Proof.
have [A [r [h' E]]] :=
  seg_matrix_rhs_returns_with seg_bc_internal seg_bc_val [::].
exists A, r, h'; split; [by [] | exact: E |].
have [bc [bc_val [cells [weight /= [[[<-] [<-]] [_ Em] _ _ rows]]]]] :=
  matrix_rhs_neumann (isT : dim seg_grid != 0%N) E.
have neu1 : on_boundary (is_neu seg_bc_internal) seg_bc_internal 1.
  by rewrite /on_boundary /= !getE // !mxE.
have [row rhs1] := rows 1%N neu1.
exists weight; split=> [|j|]; first exact: Em.
  rewrite row /on_boundary /= /mx_get !getE // !mxE /=.
  by case: eqP => // _; congr (_ + _); apply/eqP.
by rewrite rhs1 seg_face_sign /= /mx_get getE // mxE mul1r.
Defined.

Lemma matrix_neumann_rows_witness :
  exists A w h',
    [/\ dim seg_grid != 0%N,
        matrix rot_cell seg_mapped
          (seg_data_with (Some seg_bc_internal) None [::]) false seg_heap
        = (Ok (A, w), h')
      & w = None /\ forall j, entry A 1 j = if j == 1%N then 2%:R else 0].
Proof.
have [M [w [h' E]]] :=
  seg_matrix_returns_with seg_bc_internal None [::] false.
exists (mkSq M), w, h'; split; [by [] | exact: E |].
have [Ew [bc [<-] rows]] :=
  matrix_neumann_rows (isT : dim seg_grid != 0%N) E.
have neu1 : on_boundary (is_neu seg_bc_internal) seg_bc_internal 1.
  by rewrite /on_boundary /= !getE // !mxE.
have Enone : w = None by case: w Ew {E rows}.
split=> // j; rewrite (rows 1%N j neu1) Enone /on_boundary /=.
by rewrite /mx_get !getE // !mxE /=; case: eqP => // _; apply/eqP.
Defined.

Lemma matrix_pressure_block_witness :
  exists A w h',
    [/\ dim seg_grid != 0%N,
        matrix rot_cell seg_mapped seg_data true seg_heap = (Ok (A, w), h')
      & entry A 2 2 = 0].
Proof.
have [M [w [h' E]]] := seg_matrix_returns.
exists (mkSq M), (Some w), h'; split; [by [] | exact: E |].
exact: (matrix_pressure_block 0 0 (isT : dim seg_grid != 0%N) E).
Defined.

(* ---------------------------------------------------------------------- *)
(*  What matrix needs in order to return                                  *)
(* ---------------------------------------------------------------------- *)

Section MatrixRequirements.

Variable R : realFieldType.
Variable rotate_perm : 'M[R]_3 -> 'M[R]_3 -> 'M[R]_3.
Variables (g : Grid R) (mg : MappedGrid g).

Lemma unitmx0F n : n != 0%N -> ((0 : 'M[R]_n) \in unitmx) = false.
Proof. by case: n => // n _; rewrite unitmxE det0 unitr0. Qed.

Lemma mem_local_faces (c f : nat) :
  (f \in local_faces g c) = (mx_get (cell_faces g) f c != 0).
Proof.
rewrite mem_filter mem_iota /= add0n.
case: (ltnP f (num_faces g)) => [|le_f]; first by rewrite andbT.
by rewrite andbF /mx_get /get insubF ?eqxx // ltnNge le_f.
Qed.

(* np.linalg.inv raises on the permeability of a cell of aperture zero *)
Lemma local_matrix_aperture (k : Tensor R) a c t :
  dim g != 0%N ->
  local_matrix mg k a (HB_matrix R (dim g)) c = Ok t -> mx_get a 0 c != 0.
Proof.
move=> dimN0 Et; apply/negP => /eqP a0; move: Et.
rewrite /local_matrix; case: ifP => // _.
rewrite /cell_perm; case: ifP => _; last by case: ifP.
rewrite /= /massHdiv a0.
set K := (X in X \in unitmx).
have -> : K = 0 by apply/matrixP => i j; rewrite !mxE mul0r.
by rewrite unitmx0F.
Qed.

Lemma assemble_last_face (k : Tensor R) obc a bw A w :
  assemble mg k obc a bw = Ok (A, w) ->
  (0 < num_faces g)%N /\
  exists2 c, (c < num_cells g)%N
           & mx_get (cell_faces g) (num_faces g).-1 c != 0.
Proof.
rewrite /assemble; case Ec: (mapM _ _) => [cells|] //=.
case: ifP => // /andP[Fpos /hasP[t t_in last_in]] _; split=> //.
have [c Et] := mapM_ok_from Ec t_in.
move: Et last_in; rewrite /local_matrix; case: ifP => // /andP[sz _].
case: (cell_perm _ _ _) => [K|] //=; case: (massHdiv _ _ _ _ _) => [A'|] //=.
case=> <- /=; rewrite mem_local_faces => nz; exists c => //.
case: (ltnP c (num_cells g)) => // le_c.
by move: nz; rewrite /mx_get get_out ?eqxx.
Qed.

(** Property X9.  matrix returns on a grid of positive dimension only if
    the boundary conditions are given, the grid has a face and its last
    face bounds a cell (the mass matrix takes its shape from the largest
    face index of the cells), and no cell has aperture zero (the
    permeability a[c] * k of such a cell has no inverse). *)
Theorem matrix_returns_only_if (data : Data g) bw h A w h' :
  dim g != 0%N ->
  matrix rotate_perm mg data bw h = (Ok (A, w), h') ->
  [/\ isSome (get_bc (param data)),
      (0 < num_faces g)%N,
      exists2 c, (c < num_cells g)%N
               & mx_get (cell_faces g) (num_faces g).-1 c != 0
    & forall c, (c < num_cells g)%N ->
        mx_get (get_aperture (param data)) 0 c != 0].
Proof.
move=> dimN0 /(matrix_inv dimN0)[k Ea].
have [Fpos last_face] := assemble_last_face Ea.
have [cells [bc [M [Ecells -> _ _ _]]]] := assemble_parts Ea.
split=> // c lt_c.
have [|t] := mapM_ok_in Ecells (x := c); first by rewrite mem_iota.
exact: local_matrix_aperture.
Qed.

End MatrixRequirements.

Lemma matrix_returns_only_if_witness :
  exists A w h',
    [/\ dim seg_grid != 0%N,
        matrix rot_cell seg_mapped seg_data true seg_heap = (Ok (A, w), h')
      & [/\ isSome (get_bc (param seg_data)),
            (0 < num_faces seg_grid)%N,
            exists2 c, (c < num_cells seg_grid)%N
                     & mx_get (cell_faces seg_grid) 1 c != 0
          & forall c, (c < num_cells seg_grid)%N ->
              mx_get (get_aperture (param seg_data)) 0 c != 0]].
Proof.
have [M [w [h' E]]] := seg_matrix_returns.
exists (mkSq M), (Some w), h'; split; [by [] | exact: E |].
exact: (matrix_returns_only_if (isT : dim seg_grid != 0%N) E).
Defined.

(* ---------------------------------------------------------------------- *)
(*  The reference matrix HB                                               *)
(* ---------------------------------------------------------------------- *)

Section MassFacts.

Variable R : realFieldType.

Lemma HB_bands_entry dim (i j : 'I_(size_HB dim)) :
  HB_bands R dim i j = ((i <= j)%N && (dim %| j - i)%N)%:R.
Proof.
rewrite /HB_bands summxE /arange big_filter.
have -> : iota 0 (size_HB dim) = index_iota 0 (size_HB dim).
  by rewrite /index_iota subn0.
rewrite big_mkord.
have Eterm (it : 'I_(size_HB dim)) :
    (dim %| it)%N ->
    diagflat_ones R (size_HB dim) it i j
    = (nat_of_ord it == (j - i)%N)%:R * (i <= j)%N%:R.
  move=> _; rewrite mxE; case: (leqP i j) => [le_ij | lt_ji].
    by rewrite mulr1 -(eqn_add2l i it) subnKC // eq_sym.
  rewrite mulr0; case: eqP => // Ej.
  by move: lt_ji; rewrite Ej ltnNge leq_addr.
rewrite (eq_bigr _ Eterm) -big_distrl /=.
case dvd: (dim %| j - i)%N; last first.
  rewrite andbF big1 ?mul0r // => it dvd_it; case: eqP => // Eit.
  by move: dvd_it; rewrite Eit dvd.
rewrite andbT (bigID (fun it : 'I_(size_HB dim) =>
                 nat_of_ord it == (j - i)%N)) /=.
rewrite [X in _ + X]big1 ?addr0; first by move=> it /andP[_ /negPf->].
rewrite (eq_bigl (fun it : 'I_(size_HB dim) =>
           nat_of_ord it == (j - i)%N)).
  by move=> it /=; case: eqP => [->|]; rewrite ?dvd ?andbF.
rewrite (big_ord1_eq _ (fun it => (it == (j - i)%N)%:R)) eqxx.
by rewrite (leq_ltn_trans (leq_subr _ _)) // mul1r.
Qed.

(** Property X11.  The matrix HB that matrix builds from shifted diagonals
    has the entry 2 / d on its diagonal, 1 / d where the two indices differ
    and are congruent modulo g.dim, and 0 elsewhere, with
    d = dim * dim * (dim + 1) * (dim + 2). *)
Theorem HB_entries dim (i j : 'I_(size_HB dim)) :
  HB_matrix R dim i j =
  (if i == j then 2 else if (i == j %[mod dim])%N then 1 else 0)
  / (dim * dim * dim.+1 * dim.+2)%:R.
Proof.
rewrite [LHS]mxE; congr (_ / _); rewrite !mxE !HB_bands_entry -val_eqE /=.
case: (ltngtP i j) => [lt_ij | lt_ji | ->].
- by rewrite /= addr0 eq_sym eqn_mod_dvd 1?ltnW //; case: (_ %| _)%N.
- by rewrite /= add0r eqn_mod_dvd 1?ltnW //; case: (_ %| _)%N.
- by rewrite subnn dvdn0.
Qed.

End MassFacts.

(* ---------------------------------------------------------------------- *)
(*  The opposite nodes                                                    *)
(* ---------------------------------------------------------------------- *)

Section OppositeNodes.

Variable R : realFieldType.
Variable g : Grid R.

Lemma mem_nodes_of_face (n f : nat) :
  (n \in nodes_of_face g f) = get false (face_nodes g) n f.
Proof.
rewrite mem_filter mem_iota /= add0n.
case: (ltnP n (num_nodes g)) => [|le_n]; first by rewrite andbT.
by rewrite andbF /get insubF // ltnNge le_n.
Qed.

Lemma nodes_of_face_uniq (f : nat) : uniq (nodes_of_face g f).
Proof. by rewrite filter_uniq // iota_uniq. Qed.

(* the nodes of a cell that are off one of its faces: one node, when the
   face has m of the m + 1 nodes of the cell *)
Lemma size_off_face (faces_loc : seq nat) (f m : nat) :
  let nodes_loc :=
    sort leq (undup (flatten [seq nodes_of_face g f | f <- faces_loc])) in
  f \in faces_loc -> size (nodes_of_face g f) = m ->
  size nodes_loc = m.+1 ->
  size [seq n <- nodes_loc | n \notin nodes_of_face g f] = 1%N.
Proof.
move=> nodes_loc f_in size_f size_loc.
have uniq_loc : uniq nodes_loc by rewrite sort_uniq undup_uniq.
have sub n : n \in nodes_of_face g f -> n \in nodes_loc.
  move=> n_in; rewrite mem_sort mem_undup; apply/flattenP.
  by exists (nodes_of_face g f) => //; apply/mapP; exists f.
have size_on : size [seq n <- nodes_loc | n \in nodes_of_face g f] = m.
  rewrite -size_f; apply/perm_size/uniq_perm.
  - exact: filter_uniq.
  - exact: nodes_of_face_uniq.
  move=> n; rewrite mem_filter.
  by case n_in: (n \in nodes_of_face g f) => //=; apply: sub.
have := count_predC (mem (nodes_of_face g f)) nodes_loc.
rewrite -!size_filter size_on size_loc -addn1 => /eqP.
by rewrite eqn_add2l => /eqP.
Qed.

Lemma flatten_singletons (T : Type) (x0 : T) (ss : seq (seq T)) :
  all (fun s => size s == 1%N) ss ->
  size (flatten ss) = size ss /\
  forall p, (p < size ss)%N ->
    nth x0 (flatten ss) p = nth x0 (nth [::] ss p) 0.
Proof.
elim: ss => [|[|x [|y s]] ss IH] //= /IH[-> nth_ss]; split=> // p.
by case: p => [|p] //=; rewrite ltnS => /nth_ss.
Qed.

(** Property X14.  On a simplex, that is when every face of faces_loc has
    the same number m of nodes and the faces have m + 1 nodes in all,
    opposite_side_node returns one node for each face, in the order of
    faces_loc: the entry p is a node of the cell that is not a node of the
    face faces_loc[p]. *)
Theorem opposite_side_node_simplex (faces_loc : seq nat) (m : nat) :
  (forall f, f \in faces_loc -> size (nodes_of_face g f) = m) ->
  size (undup (flatten [seq nodes_of_face g f | f <- faces_loc])) = m.+1 ->
  size (opposite_side_node g faces_loc) = size faces_loc /\
  forall p, (p < size faces_loc)%N ->
    let n := nth 0%N (opposite_side_node g faces_loc) p in
    has (fun f => get false (face_nodes g) n f) faces_loc /\
    ~~ get false (face_nodes g) n (nth 0%N faces_loc p).
Proof.
move=> uniform size_cell; rewrite /opposite_side_node.
set nodes_loc := sort _ _.
set blocks := [seq _ | f <- [seq nodes_of_face g f | f <- faces_loc]].
have size_loc : size nodes_loc = m.+1 by rewrite size_sort.
have size_blocks : size blocks = size faces_loc by rewrite !size_map.
have blockE p : (p < size faces_loc)%N ->
    nth [::] blocks p
    = [seq n <- nodes_loc | n \notin nodes_of_face g (nth 0%N faces_loc p)].
  move=> lt_p; rewrite /blocks -map_comp.
  by rewrite (nth_map 0%N).
have singletons : all (fun s => size s == 1%N) blocks.
  apply/(all_nthP [::]) => p; rewrite size_blocks => lt_p.
  rewrite blockE //; apply/eqP.
  by apply: size_off_face size_loc; rewrite ?mem_nth ?uniform ?mem_nth.
have [size_flat nth_flat] := flatten_singletons 0%N singletons.
split=> [|p lt_p /=]; first by rewrite size_flat.
rewrite nth_flat ?size_blocks // blockE //.
set block := [seq n <- _ | _].
have : nth 0%N block 0 \in block.
  apply: mem_nth; rewrite /block.
  by rewrite (size_off_face (mem_nth 0%N lt_p) _ size_loc) // uniform ?mem_nth.
rewrite mem_filter mem_nodes_of_face => /andP[-> in_loc]; split=> //.
move: in_loc; rewrite mem_sort mem_undup => /flattenP[s /mapP[f f_in ->]].
by rewrite mem_nodes_of_face => n_f; apply/hasP; exists f.
Qed.

End OppositeNodes.

(* The segment: each end point is opposite to the other. *)
Lemma opposite_side_node_simplex_witness :
  [/\ forall f, f \in [:: 0; 1]%N -> size (nodes_of_face seg_grid f) = 1%N,
      size (undup (flatten [seq nodes_of_face seg_grid f | f <- [:: 0; 1]%N]))
      = 2
    & size (opposite_side_node seg_grid [:: 0; 1]%N) = 2 /\
      forall p, (p < 2)%N ->
        let n := nth 0%N (opposite_side_node seg_grid [:: 0; 1]%N) p in
        has (fun f => get false (face_nodes seg_grid) n f) [:: 0; 1]%N /\
        ~~ get false (face_nodes seg_grid) n (nth 0%N [:: 0; 1]%N p)].
Proof.
have uniform f :
    f \in [:: 0; 1]%N -> size (nodes_of_face seg_grid f) = 1%N.
  rewrite !inE => /orP[] /eqP->;
    by rewrite /nodes_of_face /= !getE // !mxE.
have size_cell :
    size (undup (flatten [seq nodes_of_face seg_grid f | f <- [:: 0; 1]%N]))
    = 2.
  by rewrite /nodes_of_face /= !getE // !mxE.
split; [exact: uniform | exact: size_cell |].
exact: (opposite_side_node_simplex uniform size_cell).
Defined.
